(** * Heatmap interpolation compute shader

    A shallow embedding of the WGSL compute shader that is stored in
    [interpolation.shaderCode] of [ts/Series/Heatmap/HeatmapSeriesDefaults.ts],
    together with the properties of the kernel.

    Conventions of the embedding:
    - a [u32] is an [N]; every operation that can overflow is wrapped with
      [wrap] (reduction modulo [2^32]);
    - an [f32] is a [spec_float] used at precision 24 and maximal exponent
      128 (IEEE binary32, round to nearest even);
    - a storage or workgroup array is a [list]; a read out of range yields
      the zero value and a write out of range is dropped;
    - an invocation of [main] is split at [workgroupBarrier()] into
      [main_before_barrier] and [main_after_barrier]; the invocations of one
      workgroup run the first part in the order of a schedule, then the second
      part in the order of a second schedule; workgroups run one after the
      other in the order of the dispatch list.  The schedules are parameters
      of every statement. *)

From Stdlib Require Import NArith ZArith Lia SpecFloat.
From stdpp Require Import base option list strings.

Local Open Scope N_scope.

(** ** Machine integers and arrays *)

Definition wrap (n : N) : N := n mod 2 ^ 32.

Definition shl (a s : N) : N := wrap (N.shiftl a s).

Definition shr (a s : N) : N := N.shiftr a s.

Definition read {A} (d : A) (l : list A) (i : N) : A :=
  default d (l !! N.to_nat i).

Definition write {A} (l : list A) (i : N) (v : A) : list A :=
  <[N.to_nat i := v]> l.

Record vec3u := Vec3u { vx : N; vy : N; vz : N }.

(** ** Binary32 arithmetic *)

Definition f32 := spec_float.

Record vec3f := Vec3f { fx : f32; fy : f32; fz : f32 }.

Definition f32_of_u32 (n : N) : f32 := binary_normalize 24 128 (Z.of_N n) 0 false.

Definition f32_div (a b : f32) : f32 := SFdiv 24 128 a b.
Definition f32_mul (a b : f32) : f32 := SFmul 24 128 a b.
Definition f32_add (a b : f32) : f32 := SFadd 24 128 a b.
Definition f32_lt (a b : f32) : bool := SFltb a b.

Definition f32_zero : f32 := S754_zero false.
Definition f32_one : f32 := S754_finite false 8388608 (-23).
Definition f32_255 : f32 := S754_finite false 16711680 (-16).

Definition f32_max (a b : f32) : f32 := if f32_lt a b then b else a.
Definition f32_min (a b : f32) : f32 := if f32_lt b a then b else a.

Definition dot (a b : vec3f) : f32 :=
  f32_add (f32_add (f32_mul (fx a) (fx b)) (f32_mul (fy a) (fy b)))
          (f32_mul (fz a) (fz b)).

Definition saturate (e : f32) : f32 := f32_min (f32_max e f32_zero) f32_one.

(** ** Colour helpers of the shader *)

Definition RGBA (r g b a : N) : N :=
  N.lor (N.lor (N.lor (shl r 24) (shl g 16)) (shl b 8)) a.

Definition colorVector (color : N) : vec3f :=
  let r := N.land (shr color 24) 255 in
  let b := N.land (shr color 16) 255 in
  let g := N.land (shr color 8) 255 in
  Vec3f (f32_div (f32_of_u32 r) f32_255)
        (f32_div (f32_of_u32 g) f32_255)
        (f32_div (f32_of_u32 b) f32_255).

(** The literals 0.2126, 0.7152 and 0.0722 rounded to binary32. *)
Definition kSRGBLuminanceFactors : vec3f :=
  Vec3f (S754_finite false 14267344 (-26))
        (S754_finite false 11999065 (-24))
        (S754_finite false 9690520 (-27)).

Definition srgbLuminance (color : N) : f32 :=
  let color_vector := colorVector color in
  saturate (dot color_vector kSRGBLuminanceFactors).

(** ** Bindings and workgroup variables *)

Record Params := { width : N; height : N; debug : N }.

(** The four storage bindings; of [belowMinMatrix] the shader touches the
    [length] field only. *)
Record Storage := {
  resultArrayList : list N;
  belowMinMatrix_length : N;
  pixelData : list N;
  debugData : list N
}.

Record Workgroup := {
  vectors : list vec3u;
  vectors_length : N;
  local_min : N;
  local_max : N
}.

Record Invocation := {
  global_id : vec3u;
  workgroup_id : vec3u;
  local_id : vec3u;
  local_index : N
}.

Definition set_result (r : list N) (s : Storage) : Storage :=
  {| resultArrayList := r;
     belowMinMatrix_length := belowMinMatrix_length s;
     pixelData := pixelData s;
     debugData := debugData s |}.

Definition set_local_min (c : N) (w : Workgroup) : Workgroup :=
  {| vectors := vectors w; vectors_length := vectors_length w;
     local_min := c; local_max := local_max w |}.

Definition set_local_max (c : N) (w : Workgroup) : Workgroup :=
  {| vectors := vectors w; vectors_length := vectors_length w;
     local_min := local_min w; local_max := c |}.

(** [let vector_index = atomicAdd(&vectors_length, 1u);
     vectors[vector_index] = vec3u(position, 0u);] *)
Definition append_vector (v : vec3u) (w : Workgroup) : Workgroup :=
  let vector_index := vectors_length w in
  {| vectors := write (vectors w) vector_index v;
     vectors_length := wrap (vectors_length w + 1);
     local_min := local_min w; local_max := local_max w |}.

(** The index sequence of [for (var i = start; i < len; i += stride)]: [None]
    when the loop has not left after [fuel] iterations. *)
Fixpoint strided (fuel : nat) (i len stride : N) : option (list N) :=
  if i <? len then
    match fuel with
    | O => None
    | S fuel' => cons i <$> strided fuel' (wrap (i + stride)) len stride
    end
  else Some [].

(** A workgroup of the dispatch, with the order in which its invocations run
    each half of [main]. *)
Record Group := {
  group_id : N * N;
  order_before : list (N * N);
  order_after : list (N * N)
}.

Definition seqN (n : N) : list N := N.of_nat <$> seq 0 (N.to_nat n).

(** The number of entries of a pixel buffer that hold the sentinel. *)
Definition sentinel_count (pixels : list N) : N :=
  N.of_nat (length (filter (λ v, v = 0) pixels)).

(** The index of a workgroup in a row-major numbering of a grid with
    [columns] workgroups per row. *)
Definition linear_workgroup_index (columns : N) (wg : N * N) : N :=
  fst wg + snd wg * columns.

(** ** Inputs of the scenarios *)

(** The four invocations of a 2 x 2 workgroup in the order of
    [local_index]. *)
Definition natural_2x2 : list (N * N) := [(0, 0); (1, 0); (0, 1); (1, 1)].

Definition group_2x2 (wg : N * N) : Group :=
  {| group_id := wg; order_before := natural_2x2;
     order_after := natural_2x2 |}.

Definition group_1x1 (wg : N * N) : Group :=
  {| group_id := wg; order_before := [(0, 0)]; order_after := [(0, 0)] |}.

(** Scenario A: a 2 x 2 image in one 2 x 2 tile. *)
Definition params_A : Params := {| width := 2; height := 2; debug := 1 |}.

Definition storage_A : Storage :=
  {| resultArrayList := [0; 0; 0; 0]; belowMinMatrix_length := 0;
     pixelData := [5; 0; 3; 0]; debugData := [0] |}.

(** A 4 x 2 image in two 2 x 2 tiles, with two inputs that differ on the
    right tile only. *)
Definition params_wide : Params := {| width := 4; height := 2; debug := 1 |}.

Definition grid_wide : list Group := [group_2x2 (0, 0); group_2x2 (1, 0)].

Definition storage_wide : Storage :=
  {| resultArrayList := [0; 0; 0; 0; 0; 0; 0; 0];
     belowMinMatrix_length := 0;
     pixelData := [65280; 0; 1; 2; 4278190080; 0; 3; 4];
     debugData := [0; 0] |}.

Definition storage_wide' : Storage :=
  {| resultArrayList := [0; 0; 0; 0; 0; 0; 0; 0];
     belowMinMatrix_length := 0;
     pixelData := [65280; 0; 0; 9; 4278190080; 0; 8; 0];
     debugData := [0; 0] |}.

(** A 1 x 2 image of sentinels under one 2 x 2 tile: the invocations with
    [local_id.x = 1] lie outside the image. *)
Definition params_narrow : Params := {| width := 1; height := 2; debug := 1 |}.

Definition storage_narrow : Storage :=
  {| resultArrayList := [0; 0]; belowMinMatrix_length := 0;
     pixelData := [0; 0]; debugData := [0] |}.

(** A 1 x 2 image in two 1 x 1 tiles, one above the other. *)
Definition grid_column : list Group := [group_1x1 (0, 0); group_1x1 (0, 1)].

Definition storage_column : Storage :=
  {| resultArrayList := [0; 0]; belowMinMatrix_length := 0;
     pixelData := [0; 5]; debugData := [9; 9] |}.

(** * The fullscreen toggle of a dashboard

    [ts/Dashboard/EditMode/Fullscreen.ts].  The instance keeps [isOpen] and
    [unbindFullscreenEvent]; what it asks of the document (registering and
    unbinding the [fullscreenchange] listener, entering and leaving
    fullscreen) is recorded, in order, in [calls].  A listener is named by
    the rank of the [addEvent] call that registered it. *)

Module Fullscreen.

Inductive Call :=
| AddEvent (listener : nat)
| Unbind (listener : nat)
| RequestFullscreen
| ExitFullscreen.

Record State := {
  isOpen : bool;
  (** [Some n]: the closure that unbinds the listener [n]; [None]:
      undefined. *)
  unbindFullscreenEvent : option nat;
  (** The number of listeners registered so far. *)
  added : nat;
  calls : list Call
}.

Definition set_isOpen (b : bool) (s : State) : State :=
  {| isOpen := b; unbindFullscreenEvent := unbindFullscreenEvent s;
     added := added s; calls := calls s |}.

Definition set_unbind (u : option nat) (s : State) : State :=
  {| isOpen := isOpen s; unbindFullscreenEvent := u;
     added := added s; calls := calls s |}.

Definition call (c : Call) (s : State) : State :=
  {| isOpen := isOpen s; unbindFullscreenEvent := unbindFullscreenEvent s;
     added := added s; calls := calls s ++ [c] |}.

(** [addEvent(...)] registers a listener and returns its unbind function. *)
Definition addEvent (s : State) : nat * State :=
  (added s,
   {| isOpen := isOpen s; unbindFullscreenEvent := unbindFullscreenEvent s;
      added := S (added s); calls := calls s ++ [AddEvent (added s)] |}).

Definition constructor : State :=
  {| isOpen := false; unbindFullscreenEvent := None; added := 0;
     calls := [] |}.

(** [is_document] is [ownerDocument instanceof Document]. *)
Definition close (is_document : bool) (s : State) : State :=
  let s := if isOpen s && is_document then call ExitFullscreen s else s in
  let s := match unbindFullscreenEvent s with
           | Some n => set_unbind None (call (Unbind n) s)
           | None => s
           end in
  set_isOpen false s.

(** The callback that [open] registers for [fullscreenchange]. *)
Definition on_fullscreenchange (is_document : bool) (s : State) : State :=
  if isOpen s then close is_document (set_isOpen false s)
  else set_isOpen true s.

Definition open (s : State) : State :=
  let '(unbindChange, s) := addEvent s in
  let s := set_unbind (Some unbindChange) s in
  call RequestFullscreen s.

Definition toggle (is_document : bool) (s : State) : State :=
  if isOpen s then close is_document s else open s.

(** What can happen to an instance: a call of one of its methods, or the
    document firing [fullscreenchange] at the registered callback. *)
Inductive Op := Toggle | Open | Close | Event.

Definition step (is_document : bool) (s : State) (o : Op) : State :=
  match o with
  | Toggle => toggle is_document s
  | Open => open s
  | Close => close is_document s
  | Event => on_fullscreenchange is_document s
  end.

Definition run (is_document : bool) (s : State) (ops : list Op) : State :=
  foldl (step is_document) s ops.

(** The listeners that a sequence of calls unbinds, in order. *)
Definition unbound (cs : list Call) : list nat :=
  omap (λ c, match c with Unbind n => Some n | _ => None end) cs.

(** What holds of every instance that [constructor] and the operations
    produce: registered listeners are below [added]; the listener that
    [unbindFullscreenEvent] would unbind is registered and not yet unbound;
    no listener is unbound twice; every unbinding comes after the
    registration. *)
Definition consistent (s : State) : Prop :=
  (∀ n, AddEvent n ∈ calls s → n < added s)%nat
  ∧ (∀ n, unbindFullscreenEvent s = Some n →
          AddEvent n ∈ calls s ∧ Unbind n ∉ calls s)
  ∧ NoDup (unbound (calls s))
  ∧ (∀ pre n post, calls s = pre ++ Unbind n :: post → AddEvent n ∈ pre).

(** The listener [n] is registered, is not the one that
    [unbindFullscreenEvent] would unbind, and has not been unbound. *)
Definition leaked (n : nat) (s : State) : Prop :=
  (n < added s)%nat
  ∧ unbindFullscreenEvent s ≠ Some n
  ∧ Unbind n ∉ calls s.

End Fullscreen.

(** * The stock comparison sample

    [success] of the sample that loads three price series and creates the
    chart once all have arrived.  A string is a list of ASCII characters;
    [data] is what the server sent. *)

Module CompareSample.

Definition names : list string := ["MSFT"; "AAPL"; "GOOG"]%string.

(** [name.match(/(msft|aapl|goog)/)]: the leftmost place where one of the
    alternatives matches, the alternatives tried in order; [None] is
    [null]. *)
Fixpoint match_name (name : string) : option string :=
  if String.prefix "msft" name then Some "msft"%string
  else if String.prefix "aapl" name then Some "aapl"%string
  else if String.prefix "goog" name then Some "goog"%string
  else match name with
       | EmptyString => None
       | String _ rest => match_name rest
       end.

(** [toUpperCase] on ASCII characters: the letters a to z are raised. *)
Definition upper (c : Ascii.ascii) : Ascii.ascii :=
  let n := Ascii.N_of_ascii c in
  if (97 <=? n) && (n <=? 122) then Ascii.ascii_of_N (n - 32) else c.

Fixpoint toUpperCase (s : string) : string :=
  match s with
  | EmptyString => EmptyString
  | String c rest => String (upper c) (toUpperCase rest)
  end.

(** [l.indexOf(x)], -1 when [x] is not an element. *)
Fixpoint indexOf (x : string) (l : list string) : Z :=
  match l with
  | [] => (-1)%Z
  | y :: l' =>
      if String.eqb x y then 0%Z
      else let i := indexOf x l' in
           if (i <? 0)%Z then (-1)%Z else (i + 1)%Z
  end.

Record Series (D : Type) := { name : string; data : D }.
Arguments name {D}. Arguments data {D}.

(** [a[i] = v] on an array with holes: an index beyond the end extends the
    array; a negative index sets a property and leaves the elements. *)
Definition array_set {A} (a : list (option A)) (i : Z) (v : A)
    : list (option A) :=
  if (i <? 0)%Z then a
  else let n := Z.to_nat i in
       if (n <? length a)%nat then <[n := Some v]> a
       else a ++ replicate (n - length a) None ++ [Some v].

Record State (D : Type) := {
  seriesOptions : list (option (Series D));
  seriesCounter : nat;
  (** The [series] option of every [createChart()] so far. *)
  charts : list (list (option (Series D)))
}.
Arguments seriesOptions {D}. Arguments seriesCounter {D}.
Arguments charts {D}.

Definition initial {D} : State D :=
  {| seriesOptions := []; seriesCounter := 0; charts := [] |}.

Definition createChart {D} (s : State D) : State D :=
  {| seriesOptions := seriesOptions s; seriesCounter := seriesCounter s;
     charts := charts s ++ [seriesOptions s] |}.

(** [success(name, data)]; [None] is the [TypeError] of [null[0]]. *)
Definition success {D} (name0 : string) (data0 : D) (s : State D)
    : option (State D) :=
  m ← match_name name0;
  let name1 := toUpperCase m in
  let i := indexOf name1 names in
  let s := {| seriesOptions :=
                array_set (seriesOptions s) i
                  {| name := name1; data := data0 |};
              seriesCounter := seriesCounter s + 1;
              charts := charts s |} in
  Some (if (seriesCounter s =? length names)%nat then createChart s else s).

(** [series.forEach(obj => success(obj.name, obj.data))]. *)
Fixpoint forEach_success {D} (series : list (string * D)) (s : State D)
    : option (State D) :=
  match series with
  | [] => Some s
  | (n, d) :: rest => s' ← success n d s; forEach_success rest s'
  end.

(** What [success] does once the name has matched [m]. *)
Definition store {D} (m : string) (data0 : D) (s : State D) : State D :=
  let name1 := toUpperCase m in
  let s := {| seriesOptions :=
                array_set (seriesOptions s) (indexOf name1 names)
                  {| name := name1; data := data0 |};
              seriesCounter := seriesCounter s + 1;
              charts := charts s |} in
  if (seriesCounter s =? length names)%nat then createChart s else s.

End CompareSample.

Section Kernel.

(** The two override constants that the host prepends to the shader. *)
Variables chunk_width chunk_height : N.

Definition chunk_size : N := wrap (chunk_width * chunk_height).

(** Zero-initialised workgroup variables: [vectors] has [chunk_size]
    slots. *)
Definition workgroup_init : Workgroup :=
  {| vectors := replicate (N.to_nat chunk_size) (Vec3u 0 0 0);
     vectors_length := 0; local_min := 0; local_max := 0 |}.

(** The built-in values of the invocation [lid] of workgroup [wg] under
    [@workgroup_size(chunk_height, chunk_width)]. *)
Definition invocation (wg lid : N * N) : Invocation :=
  {| global_id := Vec3u (fst wg * chunk_height + fst lid)
                        (snd wg * chunk_width + snd lid) 0;
     workgroup_id := Vec3u (fst wg) (snd wg) 0;
     local_id := Vec3u (fst lid) (snd lid) 0;
     local_index := fst lid + snd lid * chunk_height |}.

(** The body of [main] up to [workgroupBarrier()]. *)
Definition main_before_barrier (params : Params) (inv : Invocation)
    (st : Storage * Workgroup) : Storage * Workgroup :=
  let '(s, w) := st in
  let w := if local_min w =? 0
           then set_local_min (RGBA 255 255 255 255) w else w in
  let w := if local_max w =? 0
           then set_local_max (RGBA 1 0 0 0) w else w in
  let position := (vx (global_id inv), vy (global_id inv)) in
  let size := (width params, height params) in
  let index := wrap (wrap (vy (global_id inv) * fst size)
                     + vx (global_id inv)) in
  if (fst position <? fst size) && (snd position <? snd size) then
    let pixel := read 0 (pixelData s) index in
    let w := if pixel =? 0
             then append_vector (Vec3u (fst position) (snd position) 0) w
             else w in
    let w := if negb (pixel =? 0) then
               let min_luminance := srgbLuminance (local_min w) in
               let max_luminance := srgbLuminance (local_max w) in
               let luminance := srgbLuminance pixel in
               let w := if f32_lt luminance min_luminance
                        then set_local_min pixel w else w in
               let w := if f32_lt max_luminance luminance
                        then set_local_max pixel w else w in
               w
             else w in
    (set_result (write (resultArrayList s) index pixel) s, w)
  else (s, w).

(** One iteration of the fill loop. *)
Definition fill (params : Params) (w : Workgroup) (r : list N) (i : N)
    : list N :=
  let vector := read (Vec3u 0 0 0) (vectors w) i in
  let index := wrap (wrap (vy vector * width params) + vx vector) in
  write r index (local_max w).

(** The body of [main] after [workgroupBarrier()]; the workgroup variables
    are only read there. *)
Definition main_after_barrier (params : Params) (inv : Invocation)
    (w : Workgroup) (s : Storage) : option Storage :=
  let current_vector_length := vectors_length w in
  visited ← strided (N.to_nat current_vector_length) (local_index inv)
               current_vector_length chunk_size;
  Some {| resultArrayList := foldl (fill params w) (resultArrayList s) visited;
          belowMinMatrix_length :=
            wrap (belowMinMatrix_length s + current_vector_length);
          pixelData := pixelData s;
          debugData :=
            if debug params =? 1
            then write (debugData s) (vx (workgroup_id inv))
                       current_vector_length
            else debugData s |}.

(** ** Execution of a workgroup and of a dispatch *)

Definition before_barrier (params : Params) (wg : N * N)
    (sched : list (N * N)) (st : Storage * Workgroup) : Storage * Workgroup :=
  foldl (fun st lid => main_before_barrier params (invocation wg lid) st)
        st sched.

Fixpoint after_barrier (params : Params) (wg : N * N) (w : Workgroup)
    (sched : list (N * N)) (s : Storage) : option Storage :=
  match sched with
  | [] => Some s
  | lid :: sched' =>
      s' ← main_after_barrier params (invocation wg lid) w s;
      after_barrier params wg w sched' s'
  end.

Definition run_workgroup (params : Params) (g : Group) (s : Storage)
    : option Storage :=
  let '(s1, w) := before_barrier params (group_id g) (order_before g)
                    (s, workgroup_init) in
  after_barrier params (group_id g) w (order_after g) s1.

Fixpoint dispatch (params : Params) (grid : list Group) (s : Storage)
    : option Storage :=
  match grid with
  | [] => Some s
  | g :: grid' => s' ← run_workgroup params g s; dispatch params grid' s'
  end.

(** ** Vocabulary of the statements *)

(** The local ids of a workgroup, in the order of [local_index]. *)
Definition local_ids : list (N * N) :=
  (λ i, (i mod chunk_height, i / chunk_height))
    <$> seqN (chunk_width * chunk_height).

(** Every invocation of the workgroup runs each half once. *)
Definition valid_group (g : Group) : Prop :=
  order_before g ≡ₚ local_ids ∧ order_after g ≡ₚ local_ids.

Definition valid_grid (grid : list Group) : Prop :=
  Forall valid_group grid ∧ NoDup (group_id <$> grid).

(** The tile that holds the pixel [(x, y)]. *)
Definition tile_of (x y : N) : N * N := (x / chunk_height, y / chunk_width).

Definition covers (params : Params) (grid : list Group) : Prop :=
  ∀ x y, x < width params → y < height params →
         tile_of x y ∈ group_id <$> grid.

Definition pixel_index (params : Params) (x y : N) : N :=
  y * width params + x.

(** Tile sizes and buffer sizes the host has to provide. *)
Definition well_formed (params : Params) (s : Storage) : Prop :=
  0 < chunk_width ∧ 0 < chunk_height ∧
  chunk_width * chunk_height < 2 ^ 31 ∧
  width params * height params ≤ 2 ^ 32 ∧
  belowMinMatrix_length s < 2 ^ 32 ∧
  length (pixelData s) = N.to_nat (width params * height params) ∧
  length (resultArrayList s) = N.to_nat (width params * height params).

(** The workgroup variables at the barrier. *)
Definition at_barrier (params : Params) (g : Group) (s : Storage)
    : Workgroup :=
  snd (before_barrier params (group_id g) (order_before g)
         (s, workgroup_init)).

(** The sum over the workgroups of the length of the missing list. *)
Definition missing_total (params : Params) (grid : list Group)
    (s : Storage) : N :=
  foldr (λ g acc, vectors_length (at_barrier params g s) + acc) 0 grid.

(** The two effects of [main_before_barrier], taken apart: what it does to
    the workgroup variables and what it does to the storage. *)
Definition in_bounds (params : Params) (inv : Invocation) : bool :=
  (vx (global_id inv) <? width params)
  && (vy (global_id inv) <? height params).

Definition index_of (params : Params) (inv : Invocation) : N :=
  wrap (wrap (vy (global_id inv) * width params) + vx (global_id inv)).

Definition seed (w : Workgroup) : Workgroup :=
  let w := if local_min w =? 0
           then set_local_min (RGBA 255 255 255 255) w else w in
  if local_max w =? 0 then set_local_max (RGBA 1 0 0 0) w else w.

Definition track (pixel : N) (w : Workgroup) : Workgroup :=
  let min_luminance := srgbLuminance (local_min w) in
  let max_luminance := srgbLuminance (local_max w) in
  let luminance := srgbLuminance pixel in
  let w := if f32_lt luminance min_luminance
           then set_local_min pixel w else w in
  if f32_lt max_luminance luminance then set_local_max pixel w else w.

Definition scan (params : Params) (pixels : list N) (inv : Invocation)
    (w : Workgroup) : Workgroup :=
  let w := seed w in
  if in_bounds params inv then
    let pixel := read 0 pixels (index_of params inv) in
    if pixel =? 0
    then append_vector
           (Vec3u (vx (global_id inv)) (vy (global_id inv)) 0) w
    else track pixel w
  else w.

Definition missing (params : Params) (pixels : list N) (inv : Invocation)
    : bool :=
  in_bounds params inv && (read 0 pixels (index_of params inv) =? 0).

Definition position (inv : Invocation) : vec3u :=
  Vec3u (vx (global_id inv)) (vy (global_id inv)) 0.

(** The result index that iteration [i] of the fill loop writes, and what
    an invocation whose loop runs at most once does to the storage. *)
Definition fill_index (params : Params) (w : Workgroup) (i : N) : N :=
  let vector := read (Vec3u 0 0 0) (vectors w) i in
  wrap (wrap (vy vector * width params) + vx vector).

Definition finish (params : Params) (inv : Invocation) (w : Workgroup)
    (s : Storage) : Storage :=
  {| resultArrayList :=
       if local_index inv <? vectors_length w
       then write (resultArrayList s) (fill_index params w (local_index inv))
                  (local_max w)
       else resultArrayList s;
     belowMinMatrix_length :=
       wrap (belowMinMatrix_length s + vectors_length w);
     pixelData := pixelData s;
     debugData :=
       if debug params =? 1
       then write (debugData s) (vx (workgroup_id inv)) (vectors_length w)
       else debugData s |}.

(** The invocations of a schedule that find the sentinel, in the order of
    the schedule. *)
Definition missing_list (params : Params) (pixels : list N) (wg : N * N)
    (sched : list (N * N)) : list (N * N) :=
  filter (λ lid, missing params pixels (invocation wg lid) = true) sched.

(** The value [v] is the seed [c] or a pixel, other than the sentinel, that
    an invocation of [sched] found in the image. *)
Definition seed_or_pixel (params : Params) (pixels : list N) (wg : N * N)
    (sched : list (N * N)) (c v : N) : Prop :=
  v = c
  ∨ v ≠ 0
    ∧ ∃ lid, lid ∈ sched
        ∧ in_bounds params (invocation wg lid) = true
        ∧ read 0 pixels (index_of params (invocation wg lid)) = v.

(** The result indices of the sentinel pixels of the tile [wg]. *)
Definition missing_indices (params : Params) (pixels : list N) (wg : N * N)
    : list nat :=
  (λ lid, N.to_nat (index_of params (invocation wg lid)))
    <$> missing_list params pixels wg local_ids.

(** The number of pixels of the tile [wg] that lie in the image and hold
    the sentinel. *)
Definition tile_missing (params : Params) (pixels : list N) (wg : N * N)
    : N :=
  N.of_nat (length (missing_list params pixels wg local_ids)).

(** The entries of [vectors] that the fill loop of the invocation [lid]
    reads when the missing list has [len] entries. *)
Definition loop_reads (wg : N * N) (len : N) (lid : N * N) : list N :=
  default [] (strided (N.to_nat len) (local_index (invocation wg lid))
                      len chunk_size).

Definition copy (params : Params) (inv : Invocation) (s : Storage)
    : Storage :=
  if in_bounds params inv then
    set_result (write (resultArrayList s) (index_of params inv)
                  (read 0 (pixelData s) (index_of params inv))) s
  else s.

(** * Properties *)

(** ** Machine integers and arrays *)

Lemma wrap_small n : n < 2 ^ 32 -> wrap n = n.
Proof. intros H. unfold wrap. by apply N.mod_small. Qed.

Lemma wrap_lt n : wrap n < 2 ^ 32.
Proof. unfold wrap. by apply N.mod_lt. Qed.

Lemma wrap_add_l a b : wrap (wrap a + b) = wrap (a + b).
Proof. unfold wrap. by rewrite N.Div0.add_mod_idemp_l. Qed.

Lemma read_lookup {A} (d : A) l i v :
l !! N.to_nat i = Some v -> read d l i = v.
Proof. unfold read. by intros ->. Qed.

Lemma lookup_write_eq {A} (l : list A) i v :
(N.to_nat i < length l)%nat -> write l i v !! N.to_nat i = Some v.
Proof. intros H. unfold write. by apply list_lookup_insert_eq. Qed.

Lemma lookup_write_ne {A} (l : list A) i (k : nat) v :
N.to_nat i <> k -> write l i v !! k = l !! k.
Proof. intros H. unfold write. by apply list_lookup_insert_ne. Qed.

Lemma length_write {A} (l : list A) i v : length (write l i v) = length l.
Proof. unfold write. apply length_insert. Qed.

(** ** The strided loop *)

Lemma strided_done fuel i len stride :
len <= i -> strided fuel i len stride = Some [].
Proof.
intros H. destruct fuel; simpl;
  by (destruct (N.ltb_spec i len) as [Hlt|_]; [lia|]).
Qed.

Lemma strided_once fuel i len stride :
i < len -> len <= stride -> i + stride < 2 ^ 32 ->
strided (S fuel) i len stride = Some [i].
Proof.
intros Hi Hlen Hov. simpl.
destruct (N.ltb_spec i len) as [_|Hge]; [|lia].
rewrite strided_done; [done|].
rewrite wrap_small by done. lia.
Qed.

(** ** The first half of [main] *)

Lemma main_before_barrier_split params inv s w :
  main_before_barrier params inv (s, w)
  = (copy params inv s, scan params (pixelData s) inv w).
Proof.
  unfold main_before_barrier, copy, scan, seed, track, in_bounds, index_of.
  cbn [fst snd].
  destruct (_ && _); [|done].
  destruct (read 0 (pixelData s) _ =? 0); done.
Qed.

Lemma pixelData_copy params inv s :
  pixelData (copy params inv s) = pixelData s.
Proof. unfold copy. by destruct (in_bounds params inv). Qed.

Lemma before_barrier_split params wg sched s w :
  before_barrier params wg sched (s, w)
  = (foldl (fun s lid => copy params (invocation wg lid) s) s sched,
     foldl (fun w lid => scan params (pixelData s) (invocation wg lid) w)
           w sched).
Proof.
  unfold before_barrier. revert s w.
  induction sched as [|lid sched IH]; intros s w; [done|].
  cbn [foldl]. rewrite main_before_barrier_split, IH.
  by rewrite pixelData_copy.
Qed.

(** *** The workgroup variables *)

Lemma seed_vectors w :
  vectors (seed w) = vectors w ∧ vectors_length (seed w) = vectors_length w.
Proof.
  unfold seed. destruct (local_min w =? 0); cbn;
    destruct (_ =? 0); done.
Qed.

Lemma seed_local_max w : local_max (seed w) ≠ 0.
Proof.
  unfold seed.
  destruct (local_min w =? 0); cbn [set_local_min local_max];
    destruct (N.eqb_spec (local_max w) 0) as [E|E]; cbn;
    try done; by vm_compute.
Qed.

Lemma track_vectors pixel w :
  vectors (track pixel w) = vectors w
  ∧ vectors_length (track pixel w) = vectors_length w.
Proof.
  unfold track. destruct (f32_lt _ (srgbLuminance (local_min w))); cbn;
    destruct (f32_lt _ _); done.
Qed.

Lemma track_local_max pixel w :
  local_max (track pixel w) = pixel
  ∨ local_max (track pixel w) = local_max w.
Proof.
  unfold track. destruct (f32_lt _ (srgbLuminance (local_min w))); cbn;
    destruct (f32_lt _ _); cbn; auto.
Qed.

Lemma scan_missing params pixels inv w :
  missing params pixels inv = true →
  scan params pixels inv w = append_vector (position inv) (seed w).
Proof.
  unfold missing, scan. intros [-> ->]%andb_true_iff. done.
Qed.

Lemma scan_not_missing params pixels inv w :
  missing params pixels inv = false →
  vectors (scan params pixels inv w) = vectors w
  ∧ vectors_length (scan params pixels inv w) = vectors_length w.
Proof.
  unfold missing, scan. intros H.
  destruct (in_bounds params inv); [|apply seed_vectors].
  cbn in H. rewrite H.
  destruct (track_vectors (read 0 pixels (index_of params inv)) (seed w))
    as [-> ->].
  apply seed_vectors.
Qed.

Lemma scan_local_max params pixels inv w :
  local_max (scan params pixels inv w) ≠ 0.
Proof.
  unfold scan. pose proof (seed_local_max w) as Hs.
  destruct (in_bounds params inv); [|done].
  destruct (N.eqb_spec (read 0 pixels (index_of params inv)) 0) as [E|E];
    [done|].
  destruct (track_local_max (read 0 pixels (index_of params inv)) (seed w))
    as [-> | ->]; done.
Qed.

Lemma scan_fold_local_max params pixels wg sched w :
  sched ≠ [] ∨ local_max w ≠ 0 →
  local_max (foldl (fun w lid => scan params pixels (invocation wg lid) w)
                   w sched) ≠ 0.
Proof.
  revert w. induction sched as [|lid sched IH]; intros w H.
  - by destruct H.
  - cbn [foldl]. apply IH. right. apply scan_local_max.
Qed.

Lemma scan_fold_vectors params pixels wg sched : ∀ w,
  (N.to_nat (vectors_length w) + length sched ≤ length (vectors w))%nat →
  N.of_nat (length (vectors w)) < 2 ^ 32 →
  let w' := foldl (fun w lid => scan params pixels (invocation wg lid) w)
                  w sched in
  let ms := missing_list params pixels wg sched in
  vectors_length w' = vectors_length w + N.of_nat (length ms)
  ∧ length (vectors w') = length (vectors w)
  ∧ (∀ j, (j < N.to_nat (vectors_length w))%nat →
          vectors w' !! j = vectors w !! j)
  ∧ (∀ j lid, ms !! j = Some lid →
       vectors w' !! (N.to_nat (vectors_length w) + j)%nat
       = Some (position (invocation wg lid))).
Proof.
  induction sched as [|lid sched IH]; intros w Hcap Hmax; cbn zeta.
  - cbn. split; [lia|]. split; [done|]. split; [done|].
    intros j l H. done.
  - cbn [foldl]. unfold missing_list.
    cbn [length] in Hcap.
    destruct (missing params pixels (invocation wg lid)) eqn:Hm.
    + rewrite filter_cons_True by done.
      rewrite scan_missing by done.
      destruct (seed_vectors w) as [Hv Hl].
      set (w1 := append_vector _ (seed w)).
      assert (Hl1 : vectors_length w1 = vectors_length w + 1).
      { unfold w1, append_vector. cbn. rewrite Hl.
        apply wrap_small. lia. }
      assert (Hv1 : length (vectors w1) = length (vectors w)).
      { unfold w1, append_vector. cbn. by rewrite length_write, Hv. }
      destruct (IH w1) as (IH1 & IH2 & IH3 & IH4); [lia|lia|].
      fold (missing_list params pixels wg sched) in *.
      repeat split.
      * rewrite IH1, Hl1. cbn [length]. lia.
      * lia.
      * intros j Hj. rewrite IH3 by lia.
        unfold w1, append_vector. cbn.
        rewrite lookup_write_ne by lia. by rewrite Hv.
      * intros [|j] l Hj.
        -- cbn in Hj. injection Hj as <-.
           rewrite IH3 by lia. unfold w1, append_vector. cbn.
           rewrite Hl, Nat.add_0_r. apply lookup_write_eq. rewrite Hv. lia.
        -- cbn in Hj. apply IH4 in Hj. rewrite <- Hj. f_equal. lia.
    + rewrite filter_cons_False by (by rewrite Hm).
      destruct (scan_not_missing params pixels (invocation wg lid) w Hm)
        as [Hv Hl].
      set (w1 := scan params pixels (invocation wg lid) w) in *.
      destruct (IH w1) as (IH1 & IH2 & IH3 & IH4);
        [rewrite Hv, Hl; lia|rewrite Hv; lia|].
      fold (missing_list params pixels wg sched) in *.
      rewrite Hl, Hv in *. done.
Qed.

(** *** The copy into the result buffer *)

Lemma copy_frame params inv s :
  pixelData (copy params inv s) = pixelData s
  ∧ debugData (copy params inv s) = debugData s
  ∧ belowMinMatrix_length (copy params inv s) = belowMinMatrix_length s
  ∧ length (resultArrayList (copy params inv s))
    = length (resultArrayList s).
Proof.
  unfold copy. destruct (in_bounds params inv); cbn; [|done].
  by rewrite length_write.
Qed.

Lemma copy_other params inv s (k : nat) :
  (in_bounds params inv = true → N.to_nat (index_of params inv) ≠ k) →
  resultArrayList (copy params inv s) !! k = resultArrayList s !! k.
Proof.
  unfold copy. intros H. destruct (in_bounds params inv); cbn; [|done].
  apply lookup_write_ne. by apply H.
Qed.

Lemma copy_stable params inv s i :
  resultArrayList s !! N.to_nat i = Some (read 0 (pixelData s) i) →
  resultArrayList (copy params inv s) !! N.to_nat i
  = Some (read 0 (pixelData s) i).
Proof.
  intros H. unfold copy. destruct (in_bounds params inv); cbn; [|done].
  destruct (decide (index_of params inv = i)) as [->|Hne].
  - apply lookup_write_eq. by apply lookup_lt_Some in H.
  - rewrite lookup_write_ne; [done|]. intros E. by apply N2Nat.inj in E.
Qed.

Lemma copy_here params inv s :
  in_bounds params inv = true →
  (N.to_nat (index_of params inv) < length (resultArrayList s))%nat →
  resultArrayList (copy params inv s) !! N.to_nat (index_of params inv)
  = Some (read 0 (pixelData s) (index_of params inv)).
Proof.
  intros Hb Hlt. unfold copy. rewrite Hb. cbn. by apply lookup_write_eq.
Qed.

Lemma copy_fold_frame params wg sched : ∀ s,
  let s' := foldl (fun s lid => copy params (invocation wg lid) s) s sched in
  pixelData s' = pixelData s
  ∧ debugData s' = debugData s
  ∧ belowMinMatrix_length s' = belowMinMatrix_length s
  ∧ length (resultArrayList s') = length (resultArrayList s).
Proof.
  induction sched as [|lid sched IH]; intros s; cbn zeta; [done|].
  cbn [foldl].
  destruct (copy_frame params (invocation wg lid) s) as (E1 & E2 & E3 & E4).
  destruct (IH (copy params (invocation wg lid) s)) as (I1 & I2 & I3 & I4).
  rewrite I1, I2, I3, I4. done.
Qed.

Lemma copy_fold_other params wg sched (k : nat) : ∀ s,
  (∀ lid, lid ∈ sched → in_bounds params (invocation wg lid) = true →
          N.to_nat (index_of params (invocation wg lid)) ≠ k) →
  resultArrayList
    (foldl (fun s lid => copy params (invocation wg lid) s) s sched) !! k
  = resultArrayList s !! k.
Proof.
  induction sched as [|lid sched IH]; intros s H; [done|].
  cbn [foldl]. rewrite IH.
  - apply copy_other. apply H. left.
  - intros l Hl. apply H. by right.
Qed.

Lemma copy_fold_stable params wg sched i : ∀ s,
  resultArrayList s !! N.to_nat i = Some (read 0 (pixelData s) i) →
  resultArrayList
    (foldl (fun s lid => copy params (invocation wg lid) s) s sched)
    !! N.to_nat i
  = Some (read 0 (pixelData s) i).
Proof.
  induction sched as [|lid sched IH]; intros s H; [done|].
  cbn [foldl].
  rewrite <- (pixelData_copy params (invocation wg lid) s).
  apply IH. rewrite pixelData_copy. by apply copy_stable.
Qed.

Lemma copy_fold_here params wg sched lid : ∀ s,
  lid ∈ sched →
  in_bounds params (invocation wg lid) = true →
  (N.to_nat (index_of params (invocation wg lid))
   < length (resultArrayList s))%nat →
  resultArrayList
    (foldl (fun s lid => copy params (invocation wg lid) s) s sched)
    !! N.to_nat (index_of params (invocation wg lid))
  = Some (read 0 (pixelData s) (index_of params (invocation wg lid))).
Proof.
  induction sched as [|l sched IH]; intros s Hin Hb Hlt.
  - by apply elem_of_nil in Hin.
  - cbn [foldl]. apply elem_of_cons in Hin as [->|Hin].
    + rewrite <- (pixelData_copy params (invocation wg l) s).
      apply copy_fold_stable. rewrite pixelData_copy. by apply copy_here.
    + rewrite <- (pixelData_copy params (invocation wg l) s).
      apply IH; [done|done|].
      by destruct (copy_frame params (invocation wg l) s) as (_&_&_&->).
Qed.

(** ** The second half of [main] *)

Lemma main_after_barrier_finish params inv w s :
  vectors_length w ≤ chunk_size → chunk_size < 2 ^ 31 →
  main_after_barrier params inv w s = Some (finish params inv w s).
Proof.
  intros Hlen Hcs. unfold main_after_barrier, finish.
  destruct (N.ltb_spec (local_index inv) (vectors_length w)) as [Hlt|Hge].
  - destruct (N.to_nat (vectors_length w)) as [|fuel] eqn:Hf; [lia|].
    rewrite strided_once; [done|done|done|].
    change (2 ^ 32) with (2 ^ 31 + 2 ^ 31). lia.
  - by rewrite strided_done.
Qed.

Lemma after_barrier_finish params wg w sched : ∀ s,
  vectors_length w ≤ chunk_size → chunk_size < 2 ^ 31 →
  after_barrier params wg w sched s
  = Some (foldl (fun s lid => finish params (invocation wg lid) w s)
                s sched).
Proof.
  induction sched as [|lid sched IH]; intros s Hlen Hcs; [done|].
  cbn [after_barrier foldl].
  rewrite main_after_barrier_finish by done. cbn. by apply IH.
Qed.

Lemma finish_fold_frame params wg w sched : ∀ s,
  let s' := foldl (fun s lid => finish params (invocation wg lid) w s)
                  s sched in
  pixelData s' = pixelData s
  ∧ length (resultArrayList s') = length (resultArrayList s)
  ∧ wrap (belowMinMatrix_length s')
    = wrap (belowMinMatrix_length s
            + N.of_nat (length sched) * vectors_length w).
Proof.
  induction sched as [|lid sched IH]; intros s; cbn zeta.
  - cbn. by rewrite N.add_0_r.
  - cbn [foldl].
    destruct (IH (finish params (invocation wg lid) w s)) as (I1 & I2 & I3).
    rewrite I1, I2, I3. cbn [finish pixelData resultArrayList
                              belowMinMatrix_length].
    split; [done|]. split.
    + destruct (_ <? _); [apply length_write|done].
    + rewrite wrap_add_l. f_equal. cbn [length]. lia.
Qed.

Lemma finish_fold_counter params wg w sched : ∀ s,
  sched ≠ [] →
  belowMinMatrix_length
    (foldl (fun s lid => finish params (invocation wg lid) w s) s sched)
  < 2 ^ 32.
Proof.
  induction sched as [|lid sched IH]; intros s H; [done|].
  cbn [foldl]. destruct sched as [|lid' sched'].
  - cbn. apply wrap_lt.
  - by apply IH.
Qed.

Lemma finish_fold_debug params wg w sched s :
  debugData (foldl (fun s lid => finish params (invocation wg lid) w s)
                   s sched)
  = if (debug params =? 1) && negb (bool_decide (sched = []))
    then write (debugData s) (fst wg) (vectors_length w)
    else debugData s.
Proof.
  revert s. induction sched as [|lid sched IH]; intros s.
  - cbn. by rewrite andb_false_r.
  - cbn [foldl]. rewrite IH.
    rewrite (bool_decide_eq_false_2 (lid :: sched = [])) by done.
    cbn [finish debugData invocation workgroup_id vx].
    destruct (debug params =? 1); cbn [andb negb]; [|by destruct (_ && _)].
    destruct (bool_decide (sched = [])); cbn [negb]; [done|].
    unfold write. apply list_insert_insert_eq.
Qed.

Lemma finish_fold_other params wg w sched (k : nat) : ∀ s,
  (∀ i, i < vectors_length w → N.to_nat (fill_index params w i) ≠ k) →
  resultArrayList
    (foldl (fun s lid => finish params (invocation wg lid) w s) s sched)
    !! k
  = resultArrayList s !! k.
Proof.
  induction sched as [|lid sched IH]; intros s H; [done|].
  cbn [foldl]. rewrite IH by done. cbn [finish resultArrayList].
  destruct (N.ltb_spec (local_index (invocation wg lid)) (vectors_length w))
    as [Hlt|Hge]; [|done].
  apply lookup_write_ne. by apply H.
Qed.

Lemma finish_fold_stable params wg w sched (k : nat) : ∀ s,
  resultArrayList s !! k = Some (local_max w) →
  resultArrayList
    (foldl (fun s lid => finish params (invocation wg lid) w s) s sched)
    !! k
  = Some (local_max w).
Proof.
  induction sched as [|lid sched IH]; intros s H; [done|].
  cbn [foldl]. apply IH. cbn [finish resultArrayList].
  destruct (_ <? _); [|done].
  destruct (decide (N.to_nat (fill_index params w
                                (local_index (invocation wg lid))) = k))
    as [<-|Hne].
  - apply lookup_write_eq. by apply lookup_lt_Some in H.
  - by rewrite lookup_write_ne.
Qed.

Lemma finish_fold_here params wg w sched lid : ∀ s,
  lid ∈ sched →
  local_index (invocation wg lid) < vectors_length w →
  (N.to_nat (fill_index params w (local_index (invocation wg lid)))
   < length (resultArrayList s))%nat →
  resultArrayList
    (foldl (fun s lid => finish params (invocation wg lid) w s) s sched)
    !! N.to_nat (fill_index params w (local_index (invocation wg lid)))
  = Some (local_max w).
Proof.
  induction sched as [|l sched IH]; intros s Hin Hlt Hr.
  - by apply elem_of_nil in Hin.
  - cbn [foldl]. apply elem_of_cons in Hin as [->|Hin].
    + apply finish_fold_stable. cbn [finish resultArrayList].
      destruct (N.ltb_spec (local_index (invocation wg l))
                           (vectors_length w)) as [_|Hge]; [|lia].
      by apply lookup_write_eq.
    + apply IH; [done|done|]. cbn [finish resultArrayList].
      destruct (_ <? _); [by rewrite length_write|done].
Qed.

(** ** Geometry of the tiles *)

Lemma elem_of_seqN i n : i ∈ seqN n ↔ i < n.
Proof.
  unfold seqN. rewrite list_elem_of_fmap. split.
  - intros (k & -> & Hk). apply elem_of_seq in Hk. lia.
  - intros H. exists (N.to_nat i). split; [lia|]. apply elem_of_seq. lia.
Qed.

Lemma length_local_ids :
  length local_ids = N.to_nat (chunk_width * chunk_height).
Proof. unfold local_ids, seqN. by rewrite !length_fmap, length_seq. Qed.

Lemma elem_of_local_ids lx ly :
  0 < chunk_height →
  (lx, ly) ∈ local_ids ↔ lx < chunk_height ∧ ly < chunk_width.
Proof.
  intros Hch. unfold local_ids. rewrite list_elem_of_fmap. split.
  - intros (i & E & Hi). apply elem_of_seqN in Hi. injection E as -> ->.
    split.
    + apply N.mod_lt. lia.
    + apply N.Div0.div_lt_upper_bound. lia.
  - intros [Hx Hy]. exists (lx + ly * chunk_height). split.
    + f_equal.
      * rewrite N.Div0.mod_add. symmetry. by apply N.mod_small.
      * rewrite N.div_add by lia. rewrite N.div_small by done. done.
    + apply elem_of_seqN. nia.
Qed.

Lemma local_index_covered wg i :
  0 < chunk_height → i < chunk_width * chunk_height →
  ∃ lid, lid ∈ local_ids ∧ local_index (invocation wg lid) = i.
Proof.
  intros Hch Hi. exists (i mod chunk_height, i / chunk_height). split.
  - unfold local_ids. apply list_elem_of_fmap. exists i.
    split; [done|]. by apply elem_of_seqN.
  - cbn. pose proof (N.div_mod i chunk_height). lia.
Qed.

Lemma index_of_in_bounds params inv :
  width params * height params ≤ 2 ^ 32 →
  in_bounds params inv = true →
  index_of params inv
  = pixel_index params (vx (global_id inv)) (vy (global_id inv))
  ∧ index_of params inv < width params * height params.
Proof.
  unfold in_bounds, index_of, pixel_index.
  intros Hsz [Hx Hy]%andb_true_iff.
  apply N.ltb_lt in Hx, Hy.
  assert (vy (global_id inv) * width params + vx (global_id inv)
          < width params * height params) by nia.
  rewrite (wrap_small (_ * _)) by nia.
  rewrite wrap_small by lia. done.
Qed.

Lemma pixel_index_inj params x y x' y' :
  x < width params → x' < width params →
  pixel_index params x y = pixel_index params x' y' →
  x = x' ∧ y = y'.
Proof.
  unfold pixel_index. intros Hx Hx' E.
  assert (y = y') as ->.
  { assert (Hd : (y * width params + x) / width params
                 = (y' * width params + x') / width params)
      by (by rewrite E).
    rewrite (N.add_comm (y * _)), (N.add_comm (y' * _)) in Hd.
    rewrite !N.div_add in Hd by lia.
    rewrite !N.div_small in Hd by done. done. }
  split; [lia|done].
Qed.

Lemma tile_of_invocation wg lid :
  0 < chunk_width → 0 < chunk_height → lid ∈ local_ids →
  tile_of (vx (global_id (invocation wg lid)))
          (vy (global_id (invocation wg lid))) = wg.
Proof.
  intros Hcw Hch Hin. destruct lid as [lx ly], wg as [wx wy].
  apply elem_of_local_ids in Hin as [Hx Hy]; [|done].
  unfold tile_of. cbn.
  rewrite (N.add_comm (wx * _)), (N.add_comm (wy * _)).
  rewrite !N.div_add by lia. rewrite !N.div_small by done. done.
Qed.

Lemma invocation_of_pixel x y :
  0 < chunk_width → 0 < chunk_height →
  ∃ lid, lid ∈ local_ids
         ∧ vx (global_id (invocation (tile_of x y) lid)) = x
         ∧ vy (global_id (invocation (tile_of x y) lid)) = y.
Proof.
  intros Hcw Hch. exists (x mod chunk_height, y mod chunk_width).
  split; [|split].
  - apply elem_of_local_ids; [done|]. split; apply N.mod_lt; lia.
  - cbn. pose proof (N.div_mod x chunk_height). lia.
  - cbn. pose proof (N.div_mod y chunk_width). lia.
Qed.

(** ** One workgroup *)

Lemma chunk_size_small :
  chunk_width * chunk_height < 2 ^ 31 →
  chunk_size = chunk_width * chunk_height.
Proof.
  intros H. unfold chunk_size. apply wrap_small.
  change (2 ^ 32) with (2 ^ 31 + 2 ^ 31). lia.
Qed.

Lemma at_barrier_scan params g s :
  at_barrier params g s
  = foldl (fun w lid =>
             scan params (pixelData s) (invocation (group_id g) lid) w)
          workgroup_init (order_before g).
Proof. unfold at_barrier. by rewrite before_barrier_split. Qed.

Lemma at_barrier_pixels params g s s' :
  pixelData s = pixelData s' →
  at_barrier params g s = at_barrier params g s'.
Proof. intros E. by rewrite !at_barrier_scan, E. Qed.

Lemma at_barrier_facts params g s :
  chunk_width * chunk_height < 2 ^ 31 →
  length (order_before g) = length local_ids →
  let w := at_barrier params g s in
  let ms := missing_list params (pixelData s) (group_id g)
              (order_before g) in
  vectors_length w = N.of_nat (length ms)
  ∧ vectors_length w ≤ chunk_size
  ∧ ∀ j lid, ms !! j = Some lid →
      fill_index params w (N.of_nat j)
      = index_of params (invocation (group_id g) lid).
Proof.
  intros Hcs Hlen. cbn zeta. rewrite at_barrier_scan.
  rewrite length_local_ids in Hlen.
  pose proof (chunk_size_small Hcs) as Ecs.
  destruct (scan_fold_vectors params (pixelData s) (group_id g)
              (order_before g) workgroup_init) as (H1 & H2 & _ & H4).
  { cbn. rewrite length_replicate, Ecs. lia. }
  { cbn. rewrite length_replicate, Ecs.
    change (2 ^ 32) with (2 ^ 31 + 2 ^ 31). lia. }
  cbn [workgroup_init vectors_length] in H1, H4.
  rewrite N.add_0_l in H1. split; [done|]. split.
  - rewrite H1, Ecs. unfold missing_list.
    pose proof (length_filter
      (λ lid, missing params (pixelData s)
                (invocation (group_id g) lid) = true) (order_before g)).
    lia.
  - intros j lid Hj. apply H4 in Hj.
    change (N.to_nat 0 + j)%nat with j in Hj.
    unfold fill_index.
    rewrite (read_lookup _ _ _ (position (invocation (group_id g) lid)));
      [done|].
    by rewrite Nat2N.id.
Qed.

Lemma elem_of_missing_list params pixels wg sched lid :
  lid ∈ missing_list params pixels wg sched
  ↔ lid ∈ sched ∧ missing params pixels (invocation wg lid) = true.
Proof.
  unfold missing_list. rewrite list_elem_of_filter. tauto.
Qed.

Lemma run_workgroup_spec params g s :
  0 < chunk_width → 0 < chunk_height →
  chunk_width * chunk_height < 2 ^ 31 →
  valid_group g →
  let w := at_barrier params g s in
  ∃ s', run_workgroup params g s = Some s'
    ∧ pixelData s' = pixelData s
    ∧ length (resultArrayList s') = length (resultArrayList s)
    ∧ belowMinMatrix_length s'
      = wrap (belowMinMatrix_length s + chunk_size * vectors_length w)
    ∧ debugData s'
      = (if debug params =? 1
         then write (debugData s) (fst (group_id g)) (vectors_length w)
         else debugData s)
    ∧ (∀ k : nat,
         (∀ lid, lid ∈ local_ids →
            in_bounds params (invocation (group_id g) lid) = true →
            N.to_nat (index_of params (invocation (group_id g) lid)) ≠ k) →
         resultArrayList s' !! k = resultArrayList s !! k)
    ∧ (∀ lid, lid ∈ local_ids →
         in_bounds params (invocation (group_id g) lid) = true →
         (N.to_nat (index_of params (invocation (group_id g) lid))
          < length (resultArrayList s))%nat →
         resultArrayList s'
           !! N.to_nat (index_of params (invocation (group_id g) lid))
         = Some
             (let pixel := read 0 (pixelData s)
                             (index_of params
                                (invocation (group_id g) lid)) in
              if pixel =? 0 then local_max w else pixel)).
Proof.
  intros Hcw Hch Hcs [Hb Ha]. cbn zeta.
  pose proof (chunk_size_small Hcs) as Ecs.
  assert (Hlb : length (order_before g) = length local_ids)
    by (by rewrite Hb).
  assert (Hla : length (order_after g) = length local_ids)
    by (by rewrite Ha).
  destruct (at_barrier_facts params g s Hcs Hlb) as (Hlen & Hle & Hfill).
  set (w := at_barrier params g s) in *.
  set (ms := missing_list params (pixelData s) (group_id g)
               (order_before g)) in *.
  set (s1 := foldl (fun s lid =>
                      copy params (invocation (group_id g) lid) s)
                   s (order_before g)).
  destruct (copy_fold_frame params (group_id g) (order_before g) s)
    as (C1 & C2 & C3 & C4). fold s1 in C1, C2, C3, C4.
  set (s2 := foldl (fun s lid =>
                      finish params (invocation (group_id g) lid) w s)
                   s1 (order_after g)).
  destruct (finish_fold_frame params (group_id g) w (order_after g) s1)
    as (F1 & F2 & F3). fold s2 in F1, F2, F3.
  assert (Hne : order_after g ≠ []).
  { intros E. rewrite E in Hla. cbn in Hla.
    rewrite length_local_ids in Hla. lia. }
  assert (Hrun : run_workgroup params g s = Some s2).
  { unfold run_workgroup. rewrite before_barrier_split.
    fold s1. rewrite <- at_barrier_scan. fold w.
    apply after_barrier_finish; [done|lia]. }
  assert (Hms : ∀ i, i < vectors_length w → ∃ lid,
             lid ∈ local_ids
             ∧ missing params (pixelData s)
                 (invocation (group_id g) lid) = true
             ∧ fill_index params w i
               = index_of params (invocation (group_id g) lid)).
  { intros i Hi. rewrite Hlen in Hi.
    destruct (lookup_lt_is_Some_2 ms (N.to_nat i)) as [lid Hl]; [lia|].
    exists lid.
    assert (Hin : lid ∈ ms) by (apply list_elem_of_lookup; eauto).
    apply elem_of_missing_list in Hin as [Hin Hm].
    split; [by rewrite <- Hb|]. split; [done|].
    rewrite <- (Hfill _ _ Hl). by rewrite N2Nat.id. }
  exists s2. split; [done|]. split; [by rewrite F1|].
  split; [by rewrite F2|]. split.
  { rewrite <- (wrap_small (belowMinMatrix_length s2)).
    - rewrite F3, C3, Hla, length_local_ids, N2Nat.id, Ecs. done.
    - by apply finish_fold_counter. }
  split.
  { unfold s2. rewrite finish_fold_debug, C2.
    rewrite bool_decide_eq_false_2; [by rewrite andb_true_r|done]. }
  split.
  - intros k Hk. unfold s2. rewrite finish_fold_other.
    + unfold s1. apply copy_fold_other. intros lid Hin.
      apply Hk. by rewrite <- Hb.
    + intros i Hi. destruct (Hms i Hi) as (lid & Hin & Hm & ->).
      apply Hk; [done|].
      unfold missing in Hm. by apply andb_true_iff in Hm as [? _].
  - intros lid Hin Hbd Hlt. cbn zeta.
    set (idx := index_of params (invocation (group_id g) lid)) in *.
    destruct (N.eqb_spec (read 0 (pixelData s) idx) 0) as [Hz|Hnz].
    + assert (Hm : lid ∈ ms).
      { apply elem_of_missing_list. split; [by rewrite Hb|].
        unfold missing. rewrite Hbd. cbn. fold idx. by apply N.eqb_eq. }
      apply list_elem_of_lookup in Hm as [j Hj].
      pose proof (lookup_lt_Some _ _ _ Hj) as Hjlt.
      destruct (local_index_covered (group_id g) (N.of_nat j))
        as (lid2 & Hin2 & Hli); [done|lia|].
      unfold idx. rewrite <- (Hfill _ _ Hj), <- Hli.
      apply finish_fold_here.
      * by rewrite Ha.
      * rewrite Hli, Hlen. lia.
      * rewrite Hli, (Hfill _ _ Hj), C4. done.
    + unfold s2. rewrite finish_fold_other.
      * unfold s1. apply copy_fold_here; [by rewrite Hb|done|done].
      * intros i Hi. destruct (Hms i Hi) as (l & _ & Hm & ->).
        intros E. apply N2Nat.inj in E.
        unfold missing in Hm. apply andb_true_iff in Hm as [_ Hm].
        apply N.eqb_eq in Hm. rewrite E in Hm. by fold idx in Hm.
Qed.

(** ** The whole dispatch *)

Lemma well_formed_next params s s' :
  well_formed params s →
  pixelData s' = pixelData s →
  length (resultArrayList s') = length (resultArrayList s) →
  belowMinMatrix_length s' < 2 ^ 32 →
  well_formed params s'.
Proof.
  intros (H1 & H2 & H3 & H4 & H5 & H6 & H7) E1 E2 E3.
  unfold well_formed. by rewrite E1, E2.
Qed.

Lemma valid_grid_cons g grid :
  valid_grid (g :: grid) →
  valid_group g ∧ valid_grid grid ∧ group_id g ∉ group_id <$> grid.
Proof.
  intros [Hf Hn]. apply Forall_cons in Hf as [Hg Hf].
  rewrite fmap_cons in Hn. apply NoDup_cons in Hn as [Hnot Hn].
  done.
Qed.

Lemma index_of_pixel params wg lid x y :
  width params * height params ≤ 2 ^ 32 →
  vx (global_id (invocation wg lid)) = x →
  vy (global_id (invocation wg lid)) = y →
  x < width params → y < height params →
  in_bounds params (invocation wg lid) = true
  ∧ index_of params (invocation wg lid) = pixel_index params x y
  ∧ pixel_index params x y < width params * height params.
Proof.
  intros Hsz Ex Ey Hx Hy.
  assert (Hb : in_bounds params (invocation wg lid) = true).
  { unfold in_bounds. rewrite Ex, Ey.
    apply andb_true_iff. split; by apply N.ltb_lt. }
  destruct (index_of_in_bounds params (invocation wg lid) Hsz Hb)
    as [E Hlt].
  rewrite Ex, Ey in E. rewrite <- E. done.
Qed.

Lemma other_tile params wg lid x y :
  0 < chunk_width → 0 < chunk_height →
  width params * height params ≤ 2 ^ 32 →
  x < width params →
  tile_of x y ≠ wg →
  lid ∈ local_ids →
  in_bounds params (invocation wg lid) = true →
  N.to_nat (index_of params (invocation wg lid))
  ≠ N.to_nat (pixel_index params x y).
Proof.
  intros Hcw Hch Hsz Hx Hne Hin Hb E. apply N2Nat.inj in E.
  destruct (index_of_in_bounds params (invocation wg lid) Hsz Hb)
    as [Ei _].
  rewrite Ei in E.
  assert (Hgx : vx (global_id (invocation wg lid)) < width params).
  { unfold in_bounds in Hb. apply andb_true_iff in Hb as [Hb _].
    by apply N.ltb_lt. }
  apply pixel_index_inj in E as [Ex Ey]; [|done|done].
  apply Hne. rewrite <- Ex, <- Ey. by apply tile_of_invocation.
Qed.

Lemma dispatch_spec params grid : ∀ s,
  well_formed params s → valid_grid grid →
  ∃ s', dispatch params grid s = Some s'
    ∧ well_formed params s'
    ∧ pixelData s' = pixelData s
    ∧ (∀ x y, x < width params → y < height params →
         tile_of x y ∉ group_id <$> grid →
         resultArrayList s' !! N.to_nat (pixel_index params x y)
         = resultArrayList s !! N.to_nat (pixel_index params x y))
    ∧ (∀ g x y, g ∈ grid → x < width params → y < height params →
         group_id g = tile_of x y →
         resultArrayList s' !! N.to_nat (pixel_index params x y)
         = Some
             (let pixel := read 0 (pixelData s) (pixel_index params x y) in
              if pixel =? 0 then local_max (at_barrier params g s)
              else pixel)).
Proof.
  induction grid as [|g grid IH]; intros s Hwf Hgrid.
  - exists s. split; [done|]. split; [done|]. split; [done|].
    split; [done|]. intros g x y Hg. by apply elem_of_nil in Hg.
  - apply valid_grid_cons in Hgrid as (Hg & Hgrid & Hfresh).
    pose proof Hwf as (Hcw & Hch & Hcs & Hsz & Hc & Hp & Hr).
    destruct (run_workgroup_spec params g s Hcw Hch Hcs Hg)
      as (s1 & Hrun & P1 & L1 & K1 & _ & Fr1 & Wr1).
    assert (Hwf1 : well_formed params s1).
    { apply (well_formed_next params s); [done|done|done|].
      rewrite K1. apply wrap_lt. }
    destruct (IH s1 Hwf1 Hgrid) as (s' & Hd & Hwf' & P' & Fr' & Wr').
    exists s'. split; [cbn; by rewrite Hrun|]. split; [done|].
    split; [by rewrite P'|]. split.
    + intros x y Hx Hy Hnot. rewrite fmap_cons in Hnot.
      apply not_elem_of_cons in Hnot as [Hne Hnot].
      rewrite Fr' by done. apply Fr1. intros lid Hin Hb.
      by apply other_tile.
    + intros g' x y Hin Hx Hy Et.
      apply elem_of_cons in Hin as [->|Hin].
      * rewrite Fr'; [|done|done|by rewrite <- Et].
        destruct (invocation_of_pixel x y Hcw Hch) as (lid & Hl & Ex & Ey).
        rewrite <- Et in Ex, Ey.
        destruct (index_of_pixel params (group_id g) lid x y)
          as (Hb & Ei & Hlt); [done..|].
        rewrite <- Ei. apply Wr1; [done|done|].
        rewrite Ei, Hr. lia.
      * rewrite (Wr' g' x y) by done. rewrite P1.
        by rewrite (at_barrier_pixels params g' s1 s).
Qed.

Lemma covers_elem params grid x y :
  covers params grid → x < width params → y < height params →
  ∃ g, g ∈ grid ∧ group_id g = tile_of x y.
Proof.
  intros Hc Hx Hy. specialize (Hc x y Hx Hy).
  apply list_elem_of_fmap in Hc as (g & E & Hg). eauto.
Qed.

Lemma at_barrier_local_max params g s :
  0 < chunk_width → 0 < chunk_height → valid_group g →
  local_max (at_barrier params g s) ≠ 0.
Proof.
  intros Hcw Hch [Hb _]. rewrite at_barrier_scan.
  apply scan_fold_local_max. left. intros E.
  apply Permutation_length in Hb. rewrite E, length_local_ids in Hb.
  cbn in Hb. lia.
Qed.

Lemma pixel_of_index params (k : nat) :
  (k < N.to_nat (width params * height params))%nat →
  ∃ x y, x < width params ∧ y < height params
         ∧ N.to_nat (pixel_index params x y) = k.
Proof.
  intros Hk. set (n := N.of_nat k).
  assert (Hw : 0 < width params) by nia.
  exists (n mod width params), (n / width params). split; [|split].
  - apply N.mod_lt. lia.
  - apply N.Div0.div_lt_upper_bound. lia.
  - unfold pixel_index. pose proof (N.div_mod n (width params)). lia.
Qed.

(** C3: after the dispatch every pixel that held the sentinel holds the
    [local_max] its tile had at the barrier, and every other pixel holds its
    input value. *)
Theorem missing_pixels_get_local_max params grid s :
  well_formed params s → valid_grid grid → covers params grid →
  ∃ s', dispatch params grid s = Some s'
    ∧ ∀ x y, x < width params → y < height params →
        let pixel := read 0 (pixelData s) (pixel_index params x y) in
        ∃ g, g ∈ grid ∧ group_id g = tile_of x y
          ∧ pixelData s !! N.to_nat (pixel_index params x y) = Some pixel
          ∧ resultArrayList s' !! N.to_nat (pixel_index params x y)
            = Some (if pixel =? 0 then local_max (at_barrier params g s)
                    else pixel).
Proof.
  intros Hwf Hgrid Hcov.
  destruct (dispatch_spec params grid s Hwf Hgrid)
    as (s' & Hd & _ & _ & _ & Wr).
  exists s'. split; [done|]. intros x y Hx Hy. cbn zeta.
  destruct (covers_elem params grid x y Hcov Hx Hy) as (g & Hg & Et).
  exists g. split; [done|]. split; [done|]. split.
  - destruct Hwf as (_ & _ & _ & _ & _ & Hp & _).
    unfold read, pixel_index.
    destruct (lookup_lt_is_Some_2 (pixelData s)
                (N.to_nat (y * width params + x))) as [v Hv]; [nia|].
    by rewrite Hv.
  - by apply Wr.
Qed.

Lemma dispatch_result_nonzero params grid s :
  well_formed params s → valid_grid grid → covers params grid →
  ∃ s', dispatch params grid s = Some s'
    ∧ length (resultArrayList s') = N.to_nat (width params * height params)
    ∧ Forall (λ v, v ≠ 0) (resultArrayList s').
Proof.
  intros Hwf Hgrid Hcov.
  destruct (dispatch_spec params grid s Hwf Hgrid)
    as (s' & Hd & Hwf' & _ & _ & Wr).
  exists s'. split; [done|].
  pose proof Hwf' as (Hcw & Hch & _ & _ & _ & _ & Hr).
  split; [done|]. apply Forall_lookup. intros k v Hk.
  pose proof (lookup_lt_Some _ _ _ Hk) as Hlt. rewrite Hr in Hlt.
  destruct (pixel_of_index params k Hlt) as (x & y & Hx & Hy & <-).
  destruct (covers_elem params grid x y Hcov Hx Hy) as (g & Hg & Et).
  rewrite (Wr g x y Hg Hx Hy Et) in Hk. injection Hk as <-. cbn zeta.
  destruct (N.eqb_spec (read 0 (pixelData s) (pixel_index params x y)) 0)
    as [E|E]; [|done].
  apply at_barrier_local_max; [done|done|].
  destruct Hgrid as [Hf _]. by apply (proj1 (Forall_forall _ _) Hf).
Qed.

(** C9: after the dispatch no entry of the result buffer is the
    sentinel. *)
Theorem result_has_no_sentinel params grid s :
  well_formed params s → valid_grid grid → covers params grid →
  ∃ s', dispatch params grid s = Some s'
    ∧ length (resultArrayList s') = N.to_nat (width params * height params)
    ∧ ∀ k v, resultArrayList s' !! k = Some v → v ≠ 0.
Proof.
  intros Hwf Hgrid Hcov.
  destruct (dispatch_result_nonzero params grid s Hwf Hgrid Hcov)
    as (s' & Hd & Hl & Hnz).
  exists s'. split; [done|]. split; [done|].
  intros k v Hk. by apply (proj1 (Forall_lookup _ _) Hnz k v).
Qed.

(** ** Dependence on the pixels of the tile only *)

Lemma scan_ext params px1 px2 inv w :
  (in_bounds params inv = true →
   read 0 px1 (index_of params inv) = read 0 px2 (index_of params inv)) →
  scan params px1 inv w = scan params px2 inv w.
Proof.
  intros H. unfold scan. destruct (in_bounds params inv); [|done].
  by rewrite H.
Qed.

Lemma scan_fold_ext params px1 px2 wg sched : ∀ w,
  (∀ lid, lid ∈ sched → in_bounds params (invocation wg lid) = true →
     read 0 px1 (index_of params (invocation wg lid))
     = read 0 px2 (index_of params (invocation wg lid))) →
  foldl (fun w lid => scan params px1 (invocation wg lid) w) w sched
  = foldl (fun w lid => scan params px2 (invocation wg lid) w) w sched.
Proof.
  induction sched as [|lid sched IH]; intros w H; [done|].
  cbn [foldl]. rewrite (scan_ext params px1 px2).
  - apply IH. intros l Hl. apply H. by right.
  - apply H. left.
Qed.

Lemma at_barrier_tile params g s1 s2 :
  0 < chunk_width → 0 < chunk_height →
  width params * height params ≤ 2 ^ 32 →
  valid_group g →
  (∀ x y, x < width params → y < height params →
     tile_of x y = group_id g →
     pixelData s1 !! N.to_nat (pixel_index params x y)
     = pixelData s2 !! N.to_nat (pixel_index params x y)) →
  at_barrier params g s1 = at_barrier params g s2.
Proof.
  intros Hcw Hch Hsz [Hb _] Hag. rewrite !at_barrier_scan.
  apply scan_fold_ext. intros lid Hin Hbd.
  rewrite Hb in Hin.
  destruct (index_of_in_bounds params _ Hsz Hbd) as [-> _].
  unfold in_bounds in Hbd. apply andb_true_iff in Hbd as [Hx Hy].
  apply N.ltb_lt in Hx, Hy.
  unfold read. rewrite Hag; [done|done|done|].
  by apply tile_of_invocation.
Qed.

(** C8: two inputs that agree on the pixels of a tile give the same result
    on that tile, whatever the pixels of the other tiles are. *)
Theorem tiles_do_not_interfere params grid s1 s2 g :
  well_formed params s1 → well_formed params s2 →
  valid_grid grid → g ∈ grid →
  (∀ x y, x < width params → y < height params →
     tile_of x y = group_id g →
     pixelData s1 !! N.to_nat (pixel_index params x y)
     = pixelData s2 !! N.to_nat (pixel_index params x y)) →
  ∃ s1' s2',
    dispatch params grid s1 = Some s1'
    ∧ dispatch params grid s2 = Some s2'
    ∧ ∀ x y, x < width params → y < height params →
        tile_of x y = group_id g →
        resultArrayList s1' !! N.to_nat (pixel_index params x y)
        = resultArrayList s2' !! N.to_nat (pixel_index params x y).
Proof.
  intros Hwf1 Hwf2 Hgrid Hg Hag.
  destruct (dispatch_spec params grid s1 Hwf1 Hgrid)
    as (s1' & Hd1 & _ & _ & _ & Wr1).
  destruct (dispatch_spec params grid s2 Hwf2 Hgrid)
    as (s2' & Hd2 & _ & _ & _ & Wr2).
  exists s1', s2'. split; [done|]. split; [done|].
  intros x y Hx Hy Et.
  rewrite (Wr1 g x y), (Wr2 g x y) by done.
  destruct Hwf1 as (Hcw & Hch & _ & Hsz & _).
  assert (Hv : valid_group g).
  { destruct Hgrid as [Hf _]. by apply (proj1 (Forall_forall _ _) Hf). }
  rewrite (at_barrier_tile params g s1 s2) by done.
  unfold read. by rewrite (Hag x y).
Qed.

(** ** The global counter and the debug buffer *)

Lemma missing_total_pixels params grid s s' :
  pixelData s = pixelData s' →
  missing_total params grid s = missing_total params grid s'.
Proof.
  intros E. unfold missing_total.
  induction grid as [|g grid IH]; [done|].
  cbn [foldr]. by rewrite IH, (at_barrier_pixels params g s s').
Qed.

Lemma dispatch_counter params grid : ∀ s s',
  well_formed params s → valid_grid grid →
  dispatch params grid s = Some s' →
  belowMinMatrix_length s'
  = wrap (belowMinMatrix_length s
          + chunk_size * missing_total params grid s).
Proof.
  induction grid as [|g grid IH]; intros s s' Hwf Hgrid Hd.
  - cbn in Hd. injection Hd as <-. cbn.
    rewrite N.mul_0_r, N.add_0_r. symmetry. apply wrap_small.
    by destruct Hwf as (_ & _ & _ & _ & Hc & _).
  - apply valid_grid_cons in Hgrid as (Hg & Hgrid & _).
    pose proof Hwf as (Hcw & Hch & Hcs & _).
    destruct (run_workgroup_spec params g s Hcw Hch Hcs Hg)
      as (s1 & Hrun & P1 & L1 & K1 & _).
    cbn in Hd. rewrite Hrun in Hd. cbn in Hd.
    assert (Hwf1 : well_formed params s1).
    { apply (well_formed_next params s); [done|done|done|].
      rewrite K1. apply wrap_lt. }
    rewrite (IH s1 s' Hwf1 Hgrid Hd), K1, wrap_add_l.
    rewrite (missing_total_pixels params grid s1 s P1).
    unfold missing_total. cbn [foldr]. f_equal. lia.
Qed.

Lemma at_barrier_no_missing params g s :
  chunk_width * chunk_height < 2 ^ 31 →
  valid_group g →
  (∀ lid, lid ∈ local_ids →
     missing params (pixelData s) (invocation (group_id g) lid) = false) →
  vectors_length (at_barrier params g s) = 0.
Proof.
  intros Hcs [Hb _] Hno.
  destruct (at_barrier_facts params g s Hcs) as (-> & _); [by rewrite Hb|].
  destruct (missing_list _ _ _ _) as [|m ms] eqn:E; [done|].
  assert (Hm : m ∈ missing_list params (pixelData s) (group_id g)
                     (order_before g)) by (rewrite E; left).
  apply elem_of_missing_list in Hm as [Hin Hm].
  rewrite Hb in Hin. by rewrite (Hno m Hin) in Hm.
Qed.

Lemma missing_total_no_sentinel params grid s :
  well_formed params s → valid_grid grid →
  Forall (λ v, v ≠ 0) (pixelData s) →
  missing_total params grid s = 0.
Proof.
  intros Hwf [Hf _] Hnz.
  destruct Hwf as (Hcw & Hch & Hcs & Hsz & _ & Hp & _).
  induction grid as [|g grid IH]; [done|].
  apply Forall_cons in Hf as [Hg Hf].
  unfold missing_total in *. cbn [foldr]. rewrite (IH Hf), N.add_0_r.
  apply at_barrier_no_missing; [done|done|].
  intros lid Hin. unfold missing.
  destruct (in_bounds params (invocation (group_id g) lid)) eqn:Hb;
    [|done].
  cbn. apply N.eqb_neq.
  destruct (index_of_in_bounds params _ Hsz Hb) as [_ Hlt].
  unfold read.
  destruct (lookup_lt_is_Some_2 (pixelData s)
              (N.to_nat (index_of params (invocation (group_id g) lid))))
    as [v Hv]; [lia|].
  rewrite Hv. cbn.
  by apply (proj1 (Forall_lookup _ _) Hnz _ v Hv).
Qed.

Lemma dispatch_without_sentinel params grid t :
  well_formed params t → valid_grid grid → covers params grid →
  Forall (λ v, v ≠ 0) (pixelData t) →
  ∃ t', dispatch params grid t = Some t'
    ∧ resultArrayList t' = pixelData t
    ∧ belowMinMatrix_length t' = belowMinMatrix_length t.
Proof.
  intros Hwf Hgrid Hcov Hnz.
  destruct (dispatch_spec params grid t Hwf Hgrid)
    as (t' & Hd & Hwf' & _ & _ & Wr).
  exists t'. split; [done|]. split.
  - pose proof Hwf as (_ & _ & _ & _ & _ & Hp & _).
    pose proof Hwf' as (_ & _ & _ & _ & _ & _ & Hr).
    apply list_eq. intros k.
    destruct (decide (k < N.to_nat (width params * height params))%nat)
      as [Hk|Hk].
    + destruct (pixel_of_index params k Hk) as (x & y & Hx & Hy & <-).
      destruct (covers_elem params grid x y Hcov Hx Hy) as (g & Hg & Et).
      rewrite (Wr g x y Hg Hx Hy Et). cbn zeta.
      destruct (lookup_lt_is_Some_2 (pixelData t)
                  (N.to_nat (pixel_index params x y))) as [v Hv]; [lia|].
      rewrite (read_lookup _ _ _ _ Hv), Hv.
      pose proof (proj1 (Forall_lookup _ _) Hnz _ v Hv) as Hv0.
      cbn in Hv0. by destruct (N.eqb_spec v 0).
    + rewrite !lookup_ge_None_2; [done|lia|lia].
  - rewrite (dispatch_counter params grid t t' Hwf Hgrid Hd).
    rewrite (missing_total_no_sentinel params grid t) by done.
    rewrite N.mul_0_r, N.add_0_r. apply wrap_small.
    by destruct Hwf as (_ & _ & _ & _ & Hc & _).
Qed.

(** C7: a second dispatch that takes the result of a first dispatch as its
    pixels gives back these pixels and adds nothing to the counter. *)
Theorem second_run_is_noop params grid grid' s :
  well_formed params s → valid_grid grid → covers params grid →
  valid_grid grid' → covers params grid' →
  ∃ s', dispatch params grid s = Some s'
    ∧ ∀ t, well_formed params t → pixelData t = resultArrayList s' →
        ∃ t', dispatch params grid' t = Some t'
          ∧ resultArrayList t' = pixelData t
          ∧ belowMinMatrix_length t' = belowMinMatrix_length t.
Proof.
  intros Hwf Hgrid Hcov Hgrid' Hcov'.
  destruct (dispatch_result_nonzero params grid s Hwf Hgrid Hcov)
    as (s' & Hd & _ & Hnz).
  exists s'. split; [done|]. intros t Hwft Ept.
  apply dispatch_without_sentinel; [done|done|done|].
  by rewrite Ept.
Qed.

Lemma at_barrier_length params g s :
  chunk_width * chunk_height < 2 ^ 31 → valid_group g →
  vectors_length (at_barrier params g s)
  = tile_missing params (pixelData s) (group_id g).
Proof.
  intros Hcs [Hb _].
  destruct (at_barrier_facts params g s Hcs) as (-> & _); [by rewrite Hb|].
  unfold tile_missing, missing_list. by rewrite Hb.
Qed.

Lemma main_after_barrier_debug params inv w s s' :
  main_after_barrier params inv w s = Some s' →
  debugData s'
  = if debug params =? 1
    then write (debugData s) (vx (workgroup_id inv)) (vectors_length w)
    else debugData s.
Proof.
  unfold main_after_barrier. destruct (strided _ _ _ _); cbn; [|done].
  by intros [= <-].
Qed.

Lemma after_barrier_debug_off params wg w sched : ∀ s s',
  debug params ≠ 1 →
  after_barrier params wg w sched s = Some s' →
  debugData s' = debugData s.
Proof.
  induction sched as [|lid sched IH]; intros s s' Hoff H.
  - by injection H as <-.
  - cbn in H.
    destruct (main_after_barrier params (invocation wg lid) w s)
      as [s1|] eqn:E; [|done].
    cbn in H. rewrite (IH s1 s' Hoff H).
    rewrite (main_after_barrier_debug _ _ _ _ _ E).
    by destruct (N.eqb_spec (debug params) 1).
Qed.

Lemma dispatch_debug_off params grid : ∀ s s',
  debug params ≠ 1 →
  dispatch params grid s = Some s' →
  debugData s' = debugData s.
Proof.
  induction grid as [|g grid IH]; intros s s' Hoff H.
  - by injection H as <-.
  - cbn in H. destruct (run_workgroup params g s) as [s1|] eqn:E; [|done].
    cbn in H. rewrite (IH s1 s' Hoff H).
    unfold run_workgroup in E. rewrite before_barrier_split in E.
    apply after_barrier_debug_off in E; [|done]. rewrite E.
    by destruct (copy_fold_frame params (group_id g) (order_before g) s)
      as (_ & -> & _).
Qed.

Lemma dispatch_debug_other params grid (j : N) : ∀ s s',
  well_formed params s → valid_grid grid →
  (∀ g, g ∈ grid → fst (group_id g) ≠ j) →
  dispatch params grid s = Some s' →
  debugData s' !! N.to_nat j = debugData s !! N.to_nat j.
Proof.
  induction grid as [|g grid IH]; intros s s' Hwf Hgrid Hj Hd.
  - by injection Hd as <-.
  - apply valid_grid_cons in Hgrid as (Hg & Hgrid & _).
    pose proof Hwf as (Hcw & Hch & Hcs & _).
    destruct (run_workgroup_spec params g s Hcw Hch Hcs Hg)
      as (s1 & Hrun & P1 & L1 & K1 & D1 & _).
    cbn in Hd. rewrite Hrun in Hd. cbn in Hd.
    assert (Hwf1 : well_formed params s1).
    { apply (well_formed_next params s); [done|done|done|].
      rewrite K1. apply wrap_lt. }
    rewrite (IH s1 s' Hwf1 Hgrid); [|intros g' Hg'; apply Hj; by right|done].
    rewrite D1. destruct (debug params =? 1); [|done].
    apply lookup_write_ne. intros E. apply N2Nat.inj in E.
    by apply (Hj g); [left|].
Qed.

Lemma dispatch_debug_on params pre g post : ∀ s s',
  well_formed params s → valid_grid (pre ++ g :: post) →
  debug params = 1 →
  (∀ g', g' ∈ post → fst (group_id g') ≠ fst (group_id g)) →
  (N.to_nat (fst (group_id g)) < length (debugData s))%nat →
  dispatch params (pre ++ g :: post) s = Some s' →
  debugData s' !! N.to_nat (fst (group_id g))
  = Some (tile_missing params (pixelData s) (group_id g)).
Proof.
  induction pre as [|g0 pre IH]; intros s s' Hwf Hgrid Hon Hlast Hlt Hd.
  - cbn [app] in *.
    apply valid_grid_cons in Hgrid as (Hg & Hgrid & _).
    pose proof Hwf as (Hcw & Hch & Hcs & _).
    destruct (run_workgroup_spec params g s Hcw Hch Hcs Hg)
      as (s1 & Hrun & P1 & L1 & K1 & D1 & _).
    cbn in Hd. rewrite Hrun in Hd. cbn in Hd.
    assert (Hwf1 : well_formed params s1).
    { apply (well_formed_next params s); [done|done|done|].
      rewrite K1. apply wrap_lt. }
    rewrite (dispatch_debug_other params post (fst (group_id g)) s1 s')
      by done.
    rewrite D1, Hon. cbn.
    rewrite (at_barrier_length params g s) by done.
    by apply lookup_write_eq.
  - cbn [app] in *.
    apply valid_grid_cons in Hgrid as (Hg0 & Hgrid & _).
    pose proof Hwf as (Hcw & Hch & Hcs & _).
    destruct (run_workgroup_spec params g0 s Hcw Hch Hcs Hg0)
      as (s1 & Hrun & P1 & L1 & K1 & D1 & _).
    cbn in Hd. rewrite Hrun in Hd. cbn in Hd.
    assert (Hwf1 : well_formed params s1).
    { apply (well_formed_next params s); [done|done|done|].
      rewrite K1. apply wrap_lt. }
    rewrite <- P1. apply IH; [done|done|done|done| |done].
    rewrite D1, Hon. cbn. by rewrite length_write.
Qed.

(** C6, as the shader has it: with [debug] other than 1 the dispatch leaves
    [debugData] as it was; with [debug = 1] it writes the entries at the
    [workgroup_id.x] of its workgroups only, and such an entry ends as the
    missing count of the last workgroup of the dispatch with that
    [workgroup_id.x]. *)
Theorem debug_entry_of_workgroup_x params grid s :
  well_formed params s → valid_grid grid →
  ∃ s', dispatch params grid s = Some s'
    ∧ (debug params ≠ 1 → debugData s' = debugData s)
    ∧ (∀ j, (∀ g, g ∈ grid → fst (group_id g) ≠ j) →
         debugData s' !! N.to_nat j = debugData s !! N.to_nat j)
    ∧ (debug params = 1 →
       ∀ pre g post, grid = pre ++ g :: post →
         (∀ g', g' ∈ post → fst (group_id g') ≠ fst (group_id g)) →
         (N.to_nat (fst (group_id g)) < length (debugData s))%nat →
         debugData s' !! N.to_nat (fst (group_id g))
         = Some (tile_missing params (pixelData s) (group_id g))).
Proof.
  intros Hwf Hgrid.
  destruct (dispatch_spec params grid s Hwf Hgrid) as (s' & Hd & _).
  exists s'. split; [done|]. split; [|split].
  - intros Hoff. by apply (dispatch_debug_off params grid).
  - intros j Hj. by apply (dispatch_debug_other params grid).
  - intros Hon pre g post -> Hlast Hlt.
    by apply (dispatch_debug_on params pre g post s s').
Qed.

(** C4, as the shader has it: up to the barrier an invocation outside the
    image writes neither the result buffer, the counter, the debug buffer
    nor the missing list. *)
Theorem outside_image_no_write_before_barrier params inv s w :
  in_bounds params inv = false →
  ∃ w', main_before_barrier params inv (s, w) = (s, w')
    ∧ vectors w' = vectors w
    ∧ vectors_length w' = vectors_length w.
Proof.
  intros Hb. exists (seed w). split.
  - rewrite main_before_barrier_split. unfold copy, scan. by rewrite Hb.
  - apply seed_vectors.
Qed.

(** ** The missing list stays within [vectors] *)

Lemma bind_singletons {A} (h : A → list A) l :
  (∀ i, i ∈ l → h i = [i]) → l ≫= h = l.
Proof.
  induction l as [|i l IH]; intros H; [done|].
  rewrite bind_cons, H by left. cbn. f_equal. apply IH.
  intros k Hk. apply H. by right.
Qed.

Lemma bind_empties {A B} (h : A → list B) l :
  (∀ i, i ∈ l → h i = []) → l ≫= h = [].
Proof.
  induction l as [|i l IH]; intros H; [done|].
  rewrite bind_cons, H by left. cbn. apply IH.
  intros k Hk. apply H. by right.
Qed.

Lemma seqN_split (len n : N) :
  len ≤ n →
  seqN n = seqN len
           ++ (N.of_nat <$> seq (N.to_nat len) (N.to_nat (n - len))).
Proof.
  intros H. unfold seqN. rewrite <- fmap_app. f_equal.
  replace (N.to_nat n) with (N.to_nat len + N.to_nat (n - len))%nat by lia.
  by rewrite seq_app.
Qed.

Lemma loop_reads_local_index wg len i :
  len ≤ chunk_size → chunk_size < 2 ^ 31 →
  0 < chunk_height →
  loop_reads wg len (i mod chunk_height, i / chunk_height)
  = if i <? len then [i] else [].
Proof.
  intros Hlen Hcs Hch. unfold loop_reads.
  assert (E : local_index
                (invocation wg (i mod chunk_height, i / chunk_height)) = i).
  { cbn. pose proof (N.div_mod i chunk_height). lia. }
  rewrite E. destruct (N.ltb_spec i len) as [Hlt|Hge].
  - destruct (N.to_nat len) as [|fuel] eqn:Hf; [lia|].
    rewrite strided_once; [done|done|done|].
    change (2 ^ 32) with (2 ^ 31 + 2 ^ 31). lia.
  - by rewrite strided_done.
Qed.

Lemma loop_reads_local_ids wg len :
  len ≤ chunk_size → chunk_width * chunk_height < 2 ^ 31 →
  0 < chunk_height →
  local_ids ≫= loop_reads wg len = seqN len.
Proof.
  intros Hlen Hcs Hch.
  pose proof (chunk_size_small Hcs) as Ecs.
  unfold local_ids. rewrite list_fmap_bind.
  rewrite (seqN_split len) by lia.
  rewrite bind_app, bind_singletons, bind_empties.
  - by rewrite app_nil_r.
  - intros i Hi. apply list_elem_of_fmap in Hi as (k & -> & Hk).
    apply elem_of_seq in Hk. cbn.
    rewrite loop_reads_local_index; [|done|lia|done].
    by destruct (N.ltb_spec (N.of_nat k) len); [lia|].
  - intros i Hi. apply elem_of_seqN in Hi. cbn.
    rewrite loop_reads_local_index; [|done|lia|done].
    by destruct (N.ltb_spec i len); [|lia].
Qed.

Lemma strided_invocation wg len lid :
  len ≤ chunk_size → chunk_size < 2 ^ 31 →
  strided (N.to_nat len) (local_index (invocation wg lid)) len chunk_size
  = Some (loop_reads wg len lid).
Proof.
  intros Hlen Hcs. unfold loop_reads.
  destruct (N.ltb_spec (local_index (invocation wg lid)) len) as [Hlt|Hge].
  - destruct (N.to_nat len) as [|fuel] eqn:Hf; [lia|].
    rewrite strided_once; [done|done|done|].
    change (2 ^ 32) with (2 ^ 31 + 2 ^ 31). lia.
  - by rewrite strided_done.
Qed.

(** C10: whenever an invocation is about to run the first half, the length
    of the missing list is the number of appends made so far and is a free
    slot of [vectors]; at the barrier the length is the number of sentinel
    pixels of the tile and at most [chunk_size]; every fill loop ends, and
    together the loops read the entries [0 .. vectors_length - 1] once
    each and no other entry. *)
Theorem missing_list_fits_vectors params g s :
  0 < chunk_width → 0 < chunk_height →
  chunk_width * chunk_height < 2 ^ 31 →
  valid_group g →
  let len := vectors_length (at_barrier params g s) in
  (∀ pre lid post, order_before g = pre ++ lid :: post →
     let w := snd (before_barrier params (group_id g) pre
                     (s, workgroup_init)) in
     vectors_length w
     = N.of_nat (length (missing_list params (pixelData s) (group_id g)
                           pre))
     ∧ vectors_length w < chunk_size
     ∧ (N.to_nat (vectors_length w) < length (vectors w))%nat)
  ∧ len = tile_missing params (pixelData s) (group_id g)
  ∧ len ≤ chunk_size
  ∧ (∀ lid, lid ∈ order_after g →
       strided (N.to_nat len) (local_index (invocation (group_id g) lid))
               len chunk_size
       = Some (loop_reads (group_id g) len lid))
  ∧ order_after g ≫= loop_reads (group_id g) len ≡ₚ seqN len.
Proof.
  intros Hcw Hch Hcs Hg. cbn zeta.
  pose proof (chunk_size_small Hcs) as Ecs.
  pose proof Hg as [Hb Ha].
  assert (Hlb : length (order_before g) = length local_ids)
    by (by rewrite Hb).
  destruct (at_barrier_facts params g s Hcs Hlb) as (Hlen & Hle & _).
  split; [|split; [|split; [|split]]].
  - intros pre lid post E. cbn zeta. rewrite before_barrier_split.
    cbn [snd].
    rewrite E, length_app, length_local_ids in Hlb. cbn [length] in Hlb.
    destruct (scan_fold_vectors params (pixelData s) (group_id g) pre
                workgroup_init) as (H1 & H2 & _).
    { cbn. rewrite length_replicate, Ecs. lia. }
    { cbn. rewrite length_replicate, Ecs.
      change (2 ^ 32) with (2 ^ 31 + 2 ^ 31). lia. }
    cbn [workgroup_init vectors_length vectors] in H1, H2.
    rewrite length_replicate in H2. rewrite N.add_0_l in H1.
    pose proof (length_filter
      (λ lid, missing params (pixelData s)
                (invocation (group_id g) lid) = true) pre) as Hf.
    fold (missing_list params (pixelData s) (group_id g) pre) in Hf.
    rewrite H1, H2, Ecs. lia.
  - by apply at_barrier_length.
  - done.
  - intros lid _. apply strided_invocation; [done|lia].
  - rewrite Ha. by rewrite loop_reads_local_ids.
Qed.

(** ** Tiles without a pixel brighter than the seed *)

Lemma seed_local_max_eq w :
  local_max w = 0 ∨ local_max w = RGBA 1 0 0 0 →
  local_max (seed w) = RGBA 1 0 0 0.
Proof.
  intros H. unfold seed.
  destruct (local_min w =? 0); cbn [set_local_min local_max];
    destruct (N.eqb_spec (local_max w) 0) as [E|E]; cbn; try done;
    by destruct H.
Qed.

Lemma track_local_max_kept pixel w :
  f32_lt (srgbLuminance (local_max w)) (srgbLuminance pixel) = false →
  local_max (track pixel w) = local_max w.
Proof.
  intros H. unfold track.
  destruct (f32_lt _ (srgbLuminance (local_min w)));
    cbn [set_local_min local_max]; by rewrite H.
Qed.

Lemma scan_fold_keeps_seed params pixels wg sched : ∀ w,
  local_max w = 0 ∨ local_max w = RGBA 1 0 0 0 →
  (∀ lid, lid ∈ sched → in_bounds params (invocation wg lid) = true →
     f32_lt (srgbLuminance (RGBA 1 0 0 0))
            (srgbLuminance
               (read 0 pixels (index_of params (invocation wg lid))))
     = false) →
  sched ≠ [] →
  local_max (foldl (fun w lid => scan params pixels (invocation wg lid) w)
                   w sched)
  = RGBA 1 0 0 0.
Proof.
  induction sched as [|lid sched IH]; intros w Hw Hdim Hne; [done|].
  cbn [foldl].
  assert (Hs : local_max (scan params pixels (invocation wg lid) w)
               = RGBA 1 0 0 0).
  { pose proof (seed_local_max_eq w Hw) as Es. unfold scan.
    destruct (in_bounds params (invocation wg lid)) eqn:Hb; [|done].
    destruct (read 0 pixels (index_of params (invocation wg lid)) =? 0);
      [done|].
    rewrite track_local_max_kept; [done|].
    rewrite Es. apply Hdim; [left|done]. }
  destruct sched as [|lid' sched']; [done|].
  apply IH; [by right| |done].
  intros l Hl. apply Hdim. by right.
Qed.

(** * Further properties of the shader *)

(** ** The order on luminances *)

Lemma f32_lt_irrefl a : f32_lt a a = false.
Proof.
  unfold f32_lt, SFltb, SFcompare.
  destruct a as [[]|[]| |[] m e]; try reflexivity;
    rewrite Z.compare_refl;
    change (Pos.compare_cont Eq m m) with (Pos.compare m m);
    by rewrite Pos.compare_refl.
Qed.

Lemma f32_lt_trans a b c :
  f32_lt a b = true → f32_lt b c = true → f32_lt a c = true.
Proof.
  unfold f32_lt, SFltb, SFcompare.
  destruct a as [[]|[]| |[] m1 e1], b as [[]|[]| |[] m2 e2],
           c as [[]|[]| |[] m3 e3]; try done;
    change (Pos.compare_cont Eq) with Pos.compare;
    destruct (Z.compare_spec e1 e2), (Z.compare_spec e2 e3),
             (Z.compare_spec e1 e3);
    try done; try lia;
    destruct (Pos.compare_spec m1 m2), (Pos.compare_spec m2 m3),
             (Pos.compare_spec m1 m3);
    try done; try lia.
Qed.

(** ** The tracked extremes *)

Lemma seed_local_max_value w :
  local_max (seed w)
  = if local_max w =? 0 then RGBA 1 0 0 0 else local_max w.
Proof.
  unfold seed. destruct (local_min w =? 0); cbn [set_local_min local_max];
    by destruct (local_max w =? 0).
Qed.

Lemma seed_local_min_value w :
  local_min (seed w)
  = if local_min w =? 0 then RGBA 255 255 255 255 else local_min w.
Proof.
  unfold seed. destruct (local_min w =? 0); cbn [set_local_min local_max];
    by destruct (_ =? 0).
Qed.

Lemma track_local_max_value pixel w :
  local_max (track pixel w)
  = if f32_lt (srgbLuminance (local_max w)) (srgbLuminance pixel)
    then pixel else local_max w.
Proof.
  unfold track. destruct (f32_lt _ (srgbLuminance (local_min w)));
    cbn [set_local_min local_max]; by destruct (f32_lt _ _).
Qed.

Lemma track_local_min_value pixel w :
  local_min (track pixel w)
  = if f32_lt (srgbLuminance pixel) (srgbLuminance (local_min w))
    then pixel else local_min w.
Proof.
  unfold track. destruct (f32_lt _ (srgbLuminance (local_min w)));
    cbn [set_local_min local_min local_max]; by destruct (f32_lt _ _).
Qed.

Lemma scan_local_min params pixels inv w :
  local_min (scan params pixels inv w) ≠ 0.
Proof.
  assert (Hs : local_min (seed w) ≠ 0).
  { rewrite seed_local_min_value.
    destruct (N.eqb_spec (local_min w) 0); [by vm_compute|done]. }
  unfold scan. destruct (in_bounds params inv); [|done].
  destruct (N.eqb_spec (read 0 pixels (index_of params inv)) 0) as [E|E];
    [done|].
  rewrite track_local_min_value. by destruct (f32_lt _ _).
Qed.

Lemma scan_fold_snoc params pixels wg sched lid w :
  foldl (fun w lid => scan params pixels (invocation wg lid) w) w
        (sched ++ [lid])
  = scan params pixels (invocation wg lid)
      (foldl (fun w lid => scan params pixels (invocation wg lid) w) w sched).
Proof. by rewrite foldl_app. Qed.

Lemma scan_fold_nonzero params pixels wg sched w :
  sched ≠ [] →
  let w' := foldl (fun w lid => scan params pixels (invocation wg lid) w)
                  w sched in
  local_max w' ≠ 0 ∧ local_min w' ≠ 0.
Proof.
  destruct sched as [|lid sched _] using rev_ind; [done|]. intros _.
  cbn zeta. rewrite scan_fold_snoc.
  split; [apply scan_local_max|apply scan_local_min].
Qed.

Lemma seed_or_pixel_snoc params pixels wg sched lid c v :
  seed_or_pixel params pixels wg sched c v →
  seed_or_pixel params pixels wg (sched ++ [lid]) c v.
Proof.
  intros [->|(Hv & l & Hl & Hb & E)]; [by left|].
  right. split; [done|]. exists l. split; [|done].
  apply elem_of_app. by left.
Qed.

Lemma scan_fold_seed_or_pixel params pixels wg sched :
  sched ≠ [] →
  let w := foldl (fun w lid => scan params pixels (invocation wg lid) w)
                 workgroup_init sched in
  seed_or_pixel params pixels wg sched (RGBA 1 0 0 0) (local_max w)
  ∧ seed_or_pixel params pixels wg sched (RGBA 255 255 255 255)
                  (local_min w).
Proof.
  induction sched as [|lid sched IH] using rev_ind; [done|]. intros _.
  cbn zeta. rewrite scan_fold_snoc.
  set (w := foldl _ workgroup_init sched) in *.
  assert (Hs : seed_or_pixel params pixels wg sched (RGBA 1 0 0 0)
                 (local_max (seed w))
               ∧ seed_or_pixel params pixels wg sched (RGBA 255 255 255 255)
                   (local_min (seed w))).
  { rewrite seed_local_max_value, seed_local_min_value.
    destruct sched as [|l sched'].
    - cbn. split; by left.
    - destruct IH as [IH1 IH2]; [done|].
      destruct (scan_fold_nonzero params pixels wg (l :: sched')
                  workgroup_init) as [H1 H2]; [done|].
      fold w in H1, H2.
      destruct (N.eqb_spec (local_max w) 0); [done|].
      destruct (N.eqb_spec (local_min w) 0); [done|]. done. }
  destruct Hs as [Hmax Hmin].
  apply (seed_or_pixel_snoc _ _ _ _ lid) in Hmax, Hmin.
  unfold scan. destruct (in_bounds params (invocation wg lid)) eqn:Hb;
    [|done].
  destruct (N.eqb_spec (read 0 pixels (index_of params (invocation wg lid)))
              0) as [E|E]; [done|].
  rewrite track_local_max_value, track_local_min_value.
  assert (Hp : ∀ c, seed_or_pixel params pixels wg (sched ++ [lid]) c
                 (read 0 pixels (index_of params (invocation wg lid)))).
  { intros c. right. split; [done|]. exists lid. split; [|done].
    apply elem_of_app. right. left. }
  split; destruct (f32_lt _ _); done.
Qed.

(** The colour that fills the missing pixels of a tile is the seed
    [RGBA 1 0 0 0] or a pixel of that tile other than the sentinel, and
    [local_min] is the seed [RGBA 255 255 255 255] or such a pixel. *)
Theorem extremes_are_seed_or_tile_pixel params g s :
  order_before g ≠ [] →
  seed_or_pixel params (pixelData s) (group_id g) (order_before g)
    (RGBA 1 0 0 0) (local_max (at_barrier params g s))
  ∧ seed_or_pixel params (pixelData s) (group_id g) (order_before g)
      (RGBA 255 255 255 255) (local_min (at_barrier params g s)).
Proof.
  intros Hne. rewrite at_barrier_scan.
  by apply scan_fold_seed_or_pixel.
Qed.

Lemma scan_fold_extremes params pixels wg sched :
  let w := foldl (fun w lid => scan params pixels (invocation wg lid) w)
                 workgroup_init sched in
  ∀ lid, lid ∈ sched →
    in_bounds params (invocation wg lid) = true →
    read 0 pixels (index_of params (invocation wg lid)) ≠ 0 →
    f32_lt (srgbLuminance (local_max w))
           (srgbLuminance
              (read 0 pixels (index_of params (invocation wg lid))))
    = false
    ∧ f32_lt (srgbLuminance
                (read 0 pixels (index_of params (invocation wg lid))))
             (srgbLuminance (local_min w))
      = false.
Proof.
  induction sched as [|last sched IH] using rev_ind; cbn zeta.
  { intros lid Hin. by apply elem_of_nil in Hin. }
  rewrite scan_fold_snoc.
  set (w := foldl _ workgroup_init sched) in *.
  assert (Hs : ∀ lid, lid ∈ sched →
            in_bounds params (invocation wg lid) = true →
            read 0 pixels (index_of params (invocation wg lid)) ≠ 0 →
            f32_lt (srgbLuminance (local_max (seed w)))
                   (srgbLuminance
                      (read 0 pixels (index_of params (invocation wg lid))))
            = false
            ∧ f32_lt (srgbLuminance
                        (read 0 pixels
                           (index_of params (invocation wg lid))))
                     (srgbLuminance (local_min (seed w)))
              = false).
  { intros lid Hin. rewrite seed_local_max_value, seed_local_min_value.
    assert (Hne : sched ≠ []) by (intros ->; by apply elem_of_nil in Hin).
    destruct (scan_fold_nonzero params pixels wg sched workgroup_init Hne)
      as [H1 H2]. fold w in H1, H2.
    destruct (N.eqb_spec (local_max w) 0); [done|].
    destruct (N.eqb_spec (local_min w) 0); [done|]. by apply IH. }
  set (q := read 0 pixels (index_of params (invocation wg last))).
  assert (Hscan : in_bounds params (invocation wg last) = true → q ≠ 0 →
            scan params pixels (invocation wg last) w = track q (seed w)).
  { intros Hb Hq. unfold scan. rewrite Hb. fold q.
    by destruct (N.eqb_spec q 0). }
  assert (Hkeep : in_bounds params (invocation wg last) = false ∨ q = 0 →
            local_max (scan params pixels (invocation wg last) w)
            = local_max (seed w)
            ∧ local_min (scan params pixels (invocation wg last) w)
              = local_min (seed w)).
  { intros H. unfold scan.
    destruct (in_bounds params (invocation wg last)); [|done].
    fold q. destruct H as [H|H]; [done|]. by rewrite H. }
  destruct (in_bounds params (invocation wg last)) eqn:Hb;
    [destruct (N.eqb_spec q 0) as [Hq|Hq]|].
  - destruct Hkeep as [-> ->]; [by right|].
    intros lid Hin Hbl Hnz. apply elem_of_app in Hin as [Hin|Hin].
    + by apply Hs.
    + apply list_elem_of_singleton in Hin as ->. by fold q in Hnz.
  - rewrite Hscan by done.
    rewrite track_local_max_value, track_local_min_value.
    intros lid Hin Hbl Hnz. apply elem_of_app in Hin as [Hin|Hin].
    + destruct (Hs lid Hin Hbl Hnz) as [Hmax Hmin]. split.
      * destruct (f32_lt (srgbLuminance (local_max (seed w)))
                         (srgbLuminance q)) eqn:Hup; [|done].
        destruct (f32_lt (srgbLuminance q) _) eqn:Hlt; [|done].
        by rewrite (f32_lt_trans _ _ _ Hup Hlt) in Hmax.
      * destruct (f32_lt (srgbLuminance q)
                         (srgbLuminance (local_min (seed w)))) eqn:Hup;
          [|done].
        destruct (f32_lt _ (srgbLuminance q)) eqn:Hlt; [|done].
        by rewrite (f32_lt_trans _ _ _ Hlt Hup) in Hmin.
    + apply list_elem_of_singleton in Hin as ->. fold q. split.
      * destruct (f32_lt (srgbLuminance (local_max (seed w)))
                         (srgbLuminance q)) eqn:Hup; [|done].
        apply f32_lt_irrefl.
      * destruct (f32_lt (srgbLuminance q)
                         (srgbLuminance (local_min (seed w)))) eqn:Hup;
          [|done].
        apply f32_lt_irrefl.
  - destruct Hkeep as [-> ->]; [by left|].
    intros lid Hin Hbl Hnz. apply elem_of_app in Hin as [Hin|Hin].
    + by apply Hs.
    + apply list_elem_of_singleton in Hin as ->. by rewrite Hb in Hbl.
Qed.

(** When the invocations of a workgroup run the first half one after the
    other, in any order, no pixel of the tile other than the sentinel is
    brighter than [local_max] at the barrier or darker than [local_min]. *)
Theorem extremes_bound_tile_luminance params g s lid :
  lid ∈ order_before g →
  in_bounds params (invocation (group_id g) lid) = true →
  read 0 (pixelData s) (index_of params (invocation (group_id g) lid)) ≠ 0 →
  f32_lt (srgbLuminance (local_max (at_barrier params g s)))
         (srgbLuminance
            (read 0 (pixelData s)
               (index_of params (invocation (group_id g) lid))))
  = false
  ∧ f32_lt (srgbLuminance
              (read 0 (pixelData s)
                 (index_of params (invocation (group_id g) lid))))
           (srgbLuminance (local_min (at_barrier params g s)))
    = false.
Proof.
  intros Hin Hb Hnz. rewrite at_barrier_scan.
  by apply scan_fold_extremes.
Qed.

(** ** The missing list at the barrier *)

(** At the barrier the first [vectors_length] entries of [vectors] are the
    global positions, with [z = 0], of the sentinel pixels of the tile, in
    the order in which their invocations ran. *)
Theorem vectors_hold_missing_positions params g s :
  chunk_width * chunk_height < 2 ^ 31 → valid_group g →
  let w := at_barrier params g s in
  length (vectors w) = N.to_nat chunk_size
  ∧ take (N.to_nat (vectors_length w)) (vectors w)
    = (λ lid, position (invocation (group_id g) lid))
        <$> missing_list params (pixelData s) (group_id g) (order_before g).
Proof.
  intros Hcs [Hb _]. cbn zeta.
  pose proof (chunk_size_small Hcs) as Ecs.
  assert (Hlb : length (order_before g) = length local_ids)
    by (by rewrite Hb).
  destruct (at_barrier_facts params g s Hcs Hlb) as (Hlen & Hle & _).
  rewrite at_barrier_scan in *.
  rewrite length_local_ids in Hlb.
  destruct (scan_fold_vectors params (pixelData s) (group_id g)
              (order_before g) workgroup_init) as (H1 & H2 & _ & H4).
  { cbn. rewrite length_replicate, Ecs. lia. }
  { cbn. rewrite length_replicate, Ecs.
    change (2 ^ 32) with (2 ^ 31 + 2 ^ 31). lia. }
  cbn [workgroup_init vectors vectors_length] in H2, H4.
  rewrite length_replicate in H2. split; [done|].
  set (ms := missing_list params (pixelData s) (group_id g)
               (order_before g)) in *.
  rewrite Hlen, Nat2N.id. apply list_eq. intros j.
  rewrite list_lookup_fmap.
  destruct (ms !! j) as [lid|] eqn:Hj.
  - pose proof (lookup_lt_Some _ _ _ Hj) as Hlt.
    rewrite lookup_take_lt by done. by apply (H4 j lid).
  - apply lookup_ge_None in Hj. by rewrite lookup_take_ge.
Qed.

(** ** What a dispatch leaves alone *)

Lemma length_fill_fold params w visited : ∀ r,
  length (foldl (fill params w) r visited) = length r.
Proof.
  induction visited as [|i visited IH]; intros r; [done|].
  cbn [foldl]. rewrite IH. unfold fill. apply length_write.
Qed.

Lemma main_after_barrier_frame params inv w s s' :
  main_after_barrier params inv w s = Some s' →
  pixelData s' = pixelData s
  ∧ length (resultArrayList s') = length (resultArrayList s)
  ∧ length (debugData s') = length (debugData s).
Proof.
  unfold main_after_barrier. destruct (strided _ _ _ _); cbn; [|done].
  intros [= <-]. cbn. split; [done|]. split; [apply length_fill_fold|].
  destruct (_ =? 1); [apply length_write|done].
Qed.

Lemma after_barrier_frame params wg w sched : ∀ s s',
  after_barrier params wg w sched s = Some s' →
  pixelData s' = pixelData s
  ∧ length (resultArrayList s') = length (resultArrayList s)
  ∧ length (debugData s') = length (debugData s).
Proof.
  induction sched as [|lid sched IH]; intros s s' H.
  - by injection H as <-.
  - cbn in H.
    destruct (main_after_barrier params (invocation wg lid) w s)
      as [s1|] eqn:E; [|done].
    cbn in H. destruct (IH s1 s' H) as (-> & -> & ->).
    by apply main_after_barrier_frame in E.
Qed.

(** A dispatch never changes [pixelData], nor the length of the result
    buffer or of the debug buffer, whatever the grid and the schedules. *)
Theorem dispatch_keeps_pixels_and_lengths params grid : ∀ s s',
  dispatch params grid s = Some s' →
  pixelData s' = pixelData s
  ∧ length (resultArrayList s') = length (resultArrayList s)
  ∧ length (debugData s') = length (debugData s).
Proof.
  induction grid as [|g grid IH]; intros s s' H.
  - by injection H as <-.
  - cbn in H. destruct (run_workgroup params g s) as [s1|] eqn:E; [|done].
    cbn in H. destruct (IH s1 s' H) as (-> & -> & ->).
    unfold run_workgroup in E. rewrite before_barrier_split in E.
    apply after_barrier_frame in E as (-> & -> & ->).
    by destruct (copy_fold_frame params (group_id g) (order_before g) s)
      as (-> & -> & _ & ->).
Qed.

(** A dispatch leaves the result entries of the pixels whose tile is not in
    the grid as they were. *)
Theorem undispatched_tiles_keep_result params grid s x y :
  well_formed params s → valid_grid grid →
  x < width params → y < height params →
  tile_of x y ∉ group_id <$> grid →
  ∃ s', dispatch params grid s = Some s'
    ∧ resultArrayList s' !! N.to_nat (pixel_index params x y)
      = resultArrayList s !! N.to_nat (pixel_index params x y).
Proof.
  intros Hwf Hgrid Hx Hy Hnot.
  destruct (dispatch_spec params grid s Hwf Hgrid)
    as (s' & Hd & _ & _ & Fr & _).
  exists s'. split; [done|]. by apply Fr.
Qed.

(** ** Edge cases *)

(** A tile whose pixels inside the image all hold the sentinel is filled
    with the seed [RGBA 1 0 0 0]. *)
Theorem all_missing_tile_gets_seed params grid s g :
  well_formed params s → valid_grid grid → g ∈ grid →
  (∀ x y, x < width params → y < height params →
     tile_of x y = group_id g →
     pixelData s !! N.to_nat (pixel_index params x y) = Some 0) →
  ∃ s', dispatch params grid s = Some s'
    ∧ ∀ x y, x < width params → y < height params →
        tile_of x y = group_id g →
        resultArrayList s' !! N.to_nat (pixel_index params x y)
        = Some (RGBA 1 0 0 0).
Proof.
  intros Hwf Hgrid Hg Hall.
  destruct (dispatch_spec params grid s Hwf Hgrid)
    as (s' & Hd & _ & _ & _ & Wr).
  exists s'. split; [done|]. intros x y Hx Hy Et.
  rewrite (Wr g x y) by done. cbn zeta.
  rewrite (read_lookup _ _ _ _ (Hall x y Hx Hy Et)). cbn [N.eqb].
  f_equal. rewrite at_barrier_scan.
  destruct Hwf as (Hcw & Hch & _ & Hsz & _).
  assert (Hv : valid_group g).
  { destruct Hgrid as [Hf _]. by apply (proj1 (Forall_forall _ _) Hf). }
  destruct Hv as [Hb _].
  apply scan_fold_keeps_seed.
  - by left.
  - intros lid Hin Hbd. rewrite Hb in Hin.
    destruct (index_of_in_bounds params _ Hsz Hbd) as [-> _].
    unfold in_bounds in Hbd. apply andb_true_iff in Hbd as [Hgx Hgy].
    apply N.ltb_lt in Hgx, Hgy.
    rewrite (read_lookup _ _ _ 0); [by vm_compute|].
    apply Hall; [done|done|]. by apply tile_of_invocation.
  - intros E. apply Permutation_length in Hb.
    rewrite E, length_local_ids in Hb. cbn in Hb. lia.
Qed.

(** A workgroup that lies beyond the right or the bottom edge of the image
    changes neither the result buffer nor the counter; with [debug = 1] it
    writes 0 into its debug entry. *)
Theorem workgroup_outside_image params g s :
  0 < chunk_width → 0 < chunk_height →
  chunk_width * chunk_height < 2 ^ 31 →
  belowMinMatrix_length s < 2 ^ 32 →
  valid_group g →
  width params ≤ fst (group_id g) * chunk_height
  ∨ height params ≤ snd (group_id g) * chunk_width →
  ∃ s', run_workgroup params g s = Some s'
    ∧ resultArrayList s' = resultArrayList s
    ∧ belowMinMatrix_length s' = belowMinMatrix_length s
    ∧ pixelData s' = pixelData s
    ∧ debugData s'
      = if debug params =? 1
        then write (debugData s) (fst (group_id g)) 0
        else debugData s.
Proof.
  intros Hcw Hch Hcs Hc Hg Hout.
  assert (Hob : ∀ lid, in_bounds params (invocation (group_id g) lid)
                       = false).
  { intros lid. unfold in_bounds, invocation. cbn.
    apply andb_false_iff.
    destruct Hout as [H|H]; [left|right]; apply N.ltb_ge; lia. }
  assert (Hlen : vectors_length (at_barrier params g s) = 0).
  { apply at_barrier_no_missing; [done|done|].
    intros lid _. unfold missing. by rewrite Hob. }
  destruct (run_workgroup_spec params g s Hcw Hch Hcs Hg)
    as (s' & Hrun & P & L & K & D & Fr & _).
  exists s'. split; [done|]. split; [|split; [|split]].
  - apply list_eq. intros k. apply Fr. intros lid _ Hb.
    by rewrite Hob in Hb.
  - rewrite K, Hlen, N.mul_0_r, N.add_0_r. by apply wrap_small.
  - done.
  - by rewrite D, Hlen.
Qed.

(** ** The counter after a dispatch *)

Lemma filter_ext_in {A} (P Q : A → Prop) `{!∀ x, Decision (P x)}
    `{!∀ x, Decision (Q x)} (l : list A) :
  (∀ x, x ∈ l → P x ↔ Q x) → filter P l = filter Q l.
Proof.
  induction l as [|a l IH]; intros Hext; [done|].
  assert (Ha : P a ↔ Q a) by (apply Hext; left).
  assert (Hl : filter P l = filter Q l).
  { apply IH. intros x Hx. apply Hext. by right. }
  destruct (decide (P a)).
  - rewrite !filter_cons_True by tauto. by rewrite Hl.
  - rewrite !filter_cons_False by tauto. done.
Qed.

Lemma count_sentinel_lookup (l : list N) :
  length (filter (λ k, l !! k = Some 0) (seq 0 (length l)))
  = length (filter (λ v, v = 0) l).
Proof.
  induction l as [|x l IH] using rev_ind; [done|].
  rewrite length_app. cbn [length]. rewrite seq_app, !filter_app, !length_app.
  f_equal.
  - rewrite <- IH. f_equal. apply filter_ext_in. intros k Hk.
    apply elem_of_seq in Hk. by rewrite lookup_app_l by lia.
  - cbn [seq Nat.add].
    assert (E : (l ++ [x]) !! length l = Some x).
    { rewrite lookup_app_r by lia. by rewrite Nat.sub_diag. }
    destruct (decide (x = 0)) as [->|Hx].
    + by rewrite !filter_cons_True.
    + rewrite !filter_cons_False; [done|done|].
      rewrite E. by intros [= ->].
Qed.

Lemma NoDup_local_ids : 0 < chunk_height → NoDup local_ids.
Proof.
  intros Hch. unfold local_ids. apply NoDup_fmap_2_strong.
  - intros i j _ _ [= Hm Hd].
    pose proof (N.div_mod i chunk_height).
    pose proof (N.div_mod j chunk_height). rewrite Hm, Hd in *. lia.
  - unfold seqN. apply NoDup_fmap_2_strong; [|apply NoDup_seq].
    intros i j _ _. apply Nat2N.inj.
Qed.

Lemma elem_of_missing_indices params pixels wg k :
  k ∈ missing_indices params pixels wg
  ↔ ∃ lid, lid ∈ local_ids
      ∧ missing params pixels (invocation wg lid) = true
      ∧ k = N.to_nat (index_of params (invocation wg lid)).
Proof.
  unfold missing_indices. rewrite list_elem_of_fmap. split.
  - intros (lid & -> & Hin). apply elem_of_missing_list in Hin as [? ?].
    eauto.
  - intros (lid & Hin & Hm & ->). exists lid. split; [done|].
    by apply elem_of_missing_list.
Qed.

Lemma same_index_same_invocation params wg wg' lid lid' :
  0 < chunk_width → 0 < chunk_height →
  width params * height params ≤ 2 ^ 32 →
  lid ∈ local_ids → lid' ∈ local_ids →
  in_bounds params (invocation wg lid) = true →
  in_bounds params (invocation wg' lid') = true →
  N.to_nat (index_of params (invocation wg lid))
  = N.to_nat (index_of params (invocation wg' lid')) →
  wg = wg' ∧ lid = lid'.
Proof.
  intros Hcw Hch Hsz Hin Hin' Hb Hb' E. apply N2Nat.inj in E.
  destruct (index_of_in_bounds params _ Hsz Hb) as [Ei _].
  destruct (index_of_in_bounds params _ Hsz Hb') as [Ei' _].
  rewrite Ei, Ei' in E.
  pose proof Hb as Hx. pose proof Hb' as Hx'.
  unfold in_bounds in Hx, Hx'.
  apply andb_true_iff in Hx as [Hx _]. apply andb_true_iff in Hx' as [Hx' _].
  apply N.ltb_lt in Hx, Hx'.
  apply pixel_index_inj in E as [Ex Ey]; [|done|done].
  assert (Ewg : wg = wg').
  { rewrite <- (tile_of_invocation wg lid), <- (tile_of_invocation wg' lid')
      by done. by rewrite Ex, Ey. }
  split; [done|]. subst wg'.
  destruct lid as [lx ly], lid' as [lx' ly']. cbn in Ex, Ey.
  f_equal; lia.
Qed.

Lemma NoDup_missing_indices params pixels wg :
  0 < chunk_width → 0 < chunk_height →
  width params * height params ≤ 2 ^ 32 →
  NoDup (missing_indices params pixels wg).
Proof.
  intros Hcw Hch Hsz. unfold missing_indices. apply NoDup_fmap_2_strong.
  - intros l l' [Hl Hm]%elem_of_missing_list [Hl' Hm']%elem_of_missing_list E.
    unfold missing in Hm, Hm'.
    apply andb_true_iff in Hm as [Hb _]. apply andb_true_iff in Hm' as [Hb' _].
    by destruct (same_index_same_invocation params wg wg l l').
  - unfold missing_list. apply NoDup_filter. by apply NoDup_local_ids.
Qed.

Lemma missing_total_length params grid s :
  chunk_width * chunk_height < 2 ^ 31 →
  Forall valid_group grid →
  missing_total params grid s
  = N.of_nat (length ((group_id <$> grid)
                        ≫= missing_indices params (pixelData s))).
Proof.
  intros Hcs Hf. unfold missing_total.
  induction grid as [|g grid IH]; [done|].
  apply Forall_cons in Hf as [Hg Hf].
  cbn [foldr]. rewrite fmap_cons, bind_cons, length_app, (IH Hf).
  rewrite at_barrier_length by done.
  unfold tile_missing, missing_indices. rewrite length_fmap. lia.
Qed.

Lemma missing_indices_of_grid params grid s :
  well_formed params s → valid_grid grid → covers params grid →
  (group_id <$> grid) ≫= missing_indices params (pixelData s)
  ≡ₚ filter (λ k, pixelData s !! k = Some 0)
            (seq 0 (length (pixelData s))).
Proof.
  intros (Hcw & Hch & Hcs & Hsz & _ & Hp & _) [Hf Hnd] Hcov.
  apply NoDup_Permutation.
  - apply NoDup_bind; [|intros; by apply NoDup_missing_indices|done].
    intros wg wg' k _ _ (l & Hl & Hm & ->)%elem_of_missing_indices
      (l' & Hl' & Hm' & E)%elem_of_missing_indices.
    unfold missing in Hm, Hm'.
    apply andb_true_iff in Hm as [Hb _]. apply andb_true_iff in Hm' as [Hb' _].
    by destruct (same_index_same_invocation params wg wg' l l').
  - apply NoDup_filter, NoDup_seq.
  - intros k. rewrite list_elem_of_bind, list_elem_of_filter, elem_of_seq.
    split.
    + intros (wg & (lid & Hl & Hm & ->)%elem_of_missing_indices & Hwg).
      unfold missing in Hm. apply andb_true_iff in Hm as [Hb Hz].
      apply N.eqb_eq in Hz.
      destruct (index_of_in_bounds params _ Hsz Hb) as [_ Hlt].
      destruct (lookup_lt_is_Some_2 (pixelData s)
                  (N.to_nat (index_of params (invocation wg lid))))
        as [v Hv]; [lia|].
      rewrite (read_lookup _ _ _ _ Hv) in Hz. subst v.
      split; [done|lia].
    + intros [Hk Hlt].
      destruct (pixel_of_index params k) as (x & y & Hx & Hy & <-); [lia|].
      exists (tile_of x y). split; [|by apply Hcov].
      destruct (invocation_of_pixel x y Hcw Hch) as (lid & Hl & Ex & Ey).
      destruct (index_of_pixel params (tile_of x y) lid x y)
        as (Hb & Ei & _); [done..|].
      apply elem_of_missing_indices. exists lid. split; [done|].
      split; [|by rewrite Ei].
      unfold missing. rewrite Hb, Ei, (read_lookup _ _ _ _ Hk). done.
Qed.

(** After a dispatch that covers the image the counter has grown, modulo
    [2^32], by [chunk_size] times the number of sentinel pixels of the
    input: every invocation of a workgroup adds the missing count of its
    tile. *)
Theorem counter_grows_by_chunk_size_per_sentinel params grid s :
  well_formed params s → valid_grid grid → covers params grid →
  ∃ s', dispatch params grid s = Some s'
    ∧ belowMinMatrix_length s'
      = wrap (belowMinMatrix_length s
              + chunk_size * sentinel_count (pixelData s)).
Proof.
  intros Hwf Hgrid Hcov.
  destruct (dispatch_spec params grid s Hwf Hgrid) as (s' & Hd & _).
  exists s'. split; [done|].
  rewrite (dispatch_counter params grid s s' Hwf Hgrid Hd).
  pose proof Hwf as (_ & _ & Hcs & _). pose proof Hgrid as [Hf _].
  rewrite (missing_total_length params grid s Hcs Hf).
  rewrite (missing_indices_of_grid params grid s Hwf Hgrid Hcov).
  unfold sentinel_count. by rewrite count_sentinel_lookup.
Qed.

(** ** What the result depends on *)

(** The result buffer after a dispatch that covers the image depends on the
    pixels and on the order in which the invocations of each workgroup run
    the first half only: not on what the result buffer held before, not on
    the order of the workgroups, and not on the order in which the
    invocations run after the barrier. *)
Theorem result_depends_on_pixels_and_first_half params grid grid' s1 s2 :
  well_formed params s1 → well_formed params s2 →
  pixelData s1 = pixelData s2 →
  valid_grid grid → covers params grid → valid_grid grid' →
  (∀ g, g ∈ grid →
     ∃ g', g' ∈ grid' ∧ group_id g' = group_id g
           ∧ order_before g' = order_before g) →
  ∃ s1' s2',
    dispatch params grid s1 = Some s1'
    ∧ dispatch params grid' s2 = Some s2'
    ∧ resultArrayList s1' = resultArrayList s2'.
Proof.
  intros Hwf1 Hwf2 Epx Hgrid Hcov Hgrid' Hsame.
  destruct (dispatch_spec params grid s1 Hwf1 Hgrid)
    as (s1' & Hd1 & Hwf1' & _ & _ & Wr1).
  destruct (dispatch_spec params grid' s2 Hwf2 Hgrid')
    as (s2' & Hd2 & Hwf2' & _ & _ & Wr2).
  exists s1', s2'. split; [done|]. split; [done|].
  destruct Hwf1' as (_ & _ & _ & _ & _ & _ & Hr1).
  destruct Hwf2' as (_ & _ & _ & _ & _ & _ & Hr2).
  apply list_eq. intros k.
  destruct (decide (k < N.to_nat (width params * height params))%nat)
    as [Hk|Hk].
  - destruct (pixel_of_index params k Hk) as (x & y & Hx & Hy & <-).
    destruct (covers_elem params grid x y Hcov Hx Hy) as (g & Hg & Et).
    destruct (Hsame g Hg) as (g' & Hg' & Eid & Eob).
    rewrite (Wr1 g x y Hg Hx Hy Et).
    rewrite (Wr2 g' x y Hg' Hx Hy) by (by rewrite Eid).
    rewrite !at_barrier_scan, Eid, Eob, Epx. done.
  - rewrite !lookup_ge_None_2; [done|lia|lia].
Qed.

End Kernel.

(** [srgbLuminance] reads the bits 8 to 31 of a colour only: two colours
    that differ in the low byte have the same luminance. *)
Theorem luminance_ignores_low_byte c1 c2 :
  N.shiftr c1 8 = N.shiftr c2 8 → srgbLuminance c1 = srgbLuminance c2.
Proof.
  intros H.
  assert (E24 : ∀ c, N.shiftr c 24 = N.shiftr (N.shiftr c 8) 16)
    by (intros c; by rewrite N.shiftr_shiftr).
  assert (E16 : ∀ c, N.shiftr c 16 = N.shiftr (N.shiftr c 8) 8)
    by (intros c; by rewrite N.shiftr_shiftr).
  unfold srgbLuminance, colorVector, shr. cbn zeta.
  by rewrite !E24, !(E16 c1), !(E16 c2), H.
Qed.

Lemma luminance_ignores_low_byte_witness :
  N.shiftr 4278190085 8 = N.shiftr 4278190083 8
  ∧ srgbLuminance 4278190085 = srgbLuminance 4278190083.
Proof.
  split; [reflexivity|].
  apply (luminance_ignores_low_byte 4278190085 4278190083). reflexivity.
Defined.

(** * Colour packing *)

Lemma lor_high_low hi lo k :
  lo < 2 ^ k → N.lor (hi * 2 ^ k) lo = hi * 2 ^ k + lo.
Proof.
  intros H. rewrite <- N.lxor_lor, <- N.add_nocarry_lxor; try reflexivity.
  all: apply N.bits_inj_0; intros n; rewrite N.land_spec.
  all: destruct (N.lt_ge_cases n k) as [Hn|Hn].
  all: try (rewrite N.mul_pow2_bits_low by assumption; reflexivity).
  all: rewrite <- (N.mod_small lo (2 ^ k)) by assumption.
  all: rewrite N.mod_pow2_bits_high by assumption.
  all: apply andb_false_r.
Qed.

Lemma shl_byte x k : x < 256 → k ≤ 24 → shl x k = x * 2 ^ k.
Proof.
  intros Hx Hk. unfold shl. rewrite N.shiftl_mul_pow2.
  apply wrap_small.
  assert (2 ^ k ≤ 2 ^ 24) by (apply N.pow_le_mono_r; lia).
  change (2 ^ 32) with (256 * 2 ^ 24). nia.
Qed.

Lemma RGBA_sum r g b a :
  r < 256 → g < 256 → b < 256 → a < 256 →
  RGBA r g b a = r * 2 ^ 24 + (g * 2 ^ 16 + (b * 2 ^ 8 + a)).
Proof.
  intros Hr Hg Hb Ha. unfold RGBA.
  rewrite !shl_byte by lia.
  rewrite <- !N.lor_assoc.
  rewrite (lor_high_low b a 8) by (change (2 ^ 8) with 256; lia).
  rewrite (lor_high_low g _ 16)
    by (change (2 ^ 16) with 65536; change (2 ^ 8) with 256; lia).
  rewrite (lor_high_low r _ 24); [done|].
  change (2 ^ 24) with 16777216; change (2 ^ 16) with 65536;
    change (2 ^ 8) with 256; lia.
Qed.

Lemma channel_of_sum r g b a s :
  r < 256 → g < 256 → b < 256 → a < 256 →
  N.land (shr (r * 2 ^ 24 + (g * 2 ^ 16 + (b * 2 ^ 8 + a))) s) 255
  = ((r * 2 ^ 24 + (g * 2 ^ 16 + (b * 2 ^ 8 + a))) / 2 ^ s) mod 256.
Proof.
  intros. unfold shr. rewrite N.shiftr_div_pow2.
  change 255 with (N.ones 8). by rewrite N.land_ones.
Qed.

(** C5: [RGBA] puts r, g, b, a at the shifts 24, 16, 8, 0; [colorVector]
    of the packed colour is (r/255, b/255, g/255), with green and blue
    exchanged and without a. *)
Theorem colorVector_RGBA_exchanges_green_blue r g b a :
  r < 256 → g < 256 → b < 256 → a < 256 →
  N.land (shr (RGBA r g b a) 24) 255 = r
  ∧ N.land (shr (RGBA r g b a) 16) 255 = g
  ∧ N.land (shr (RGBA r g b a) 8) 255 = b
  ∧ N.land (shr (RGBA r g b a) 0) 255 = a
  ∧ colorVector (RGBA r g b a)
    = Vec3f (f32_div (f32_of_u32 r) f32_255)
            (f32_div (f32_of_u32 b) f32_255)
            (f32_div (f32_of_u32 g) f32_255).
Proof.
  intros Hr Hg Hb Ha.
  assert (E24 : N.land (shr (RGBA r g b a) 24) 255 = r).
  { rewrite RGBA_sum, channel_of_sum by done.
    change (2 ^ 24) with 16777216; change (2 ^ 16) with 65536;
      change (2 ^ 8) with 256.
    zify. Z.to_euclidean_division_equations. lia. }
  assert (E16 : N.land (shr (RGBA r g b a) 16) 255 = g).
  { rewrite RGBA_sum, channel_of_sum by done.
    change (2 ^ 24) with 16777216; change (2 ^ 16) with 65536;
      change (2 ^ 8) with 256.
    zify. Z.to_euclidean_division_equations. lia. }
  assert (E8 : N.land (shr (RGBA r g b a) 8) 255 = b).
  { rewrite RGBA_sum, channel_of_sum by done.
    change (2 ^ 24) with 16777216; change (2 ^ 16) with 65536;
      change (2 ^ 8) with 256.
    zify. Z.to_euclidean_division_equations. lia. }
  assert (E0 : N.land (shr (RGBA r g b a) 0) 255 = a).
  { rewrite RGBA_sum, channel_of_sum by done.
    change (2 ^ 24) with 16777216; change (2 ^ 16) with 65536;
      change (2 ^ 8) with 256; change (2 ^ 0) with 1.
    zify. Z.to_euclidean_division_equations. lia. }
  repeat split; try done.
  unfold colorVector. cbn zeta. by rewrite E24, E16, E8.
Qed.

(** * The scenarios *)

Lemma local_ids_2x2 : local_ids 2 2 = natural_2x2.
Proof. reflexivity. Qed.

Lemma valid_group_2x2 wg : valid_group 2 2 (group_2x2 wg).
Proof. split; cbn; by rewrite local_ids_2x2. Qed.

Lemma well_formed_A : well_formed 2 2 params_A storage_A.
Proof. repeat split; done. Qed.

Lemma valid_grid_A : valid_grid 2 2 [group_2x2 (0, 0)].
Proof.
  split.
  - apply Forall_singleton, valid_group_2x2.
  - cbn. apply NoDup_singleton.
Qed.

Lemma below_2 (x : N) : x < 2 → x = 0 ∨ x = 1.
Proof. lia. Qed.

Lemma below_4 (x : N) : x < 4 → x = 0 ∨ x = 1 ∨ x = 2 ∨ x = 3.
Proof. lia. Qed.

Lemma covers_A : covers 2 2 params_A [group_2x2 (0, 0)].
Proof.
  intros x y Hx Hy. cbn in Hx, Hy.
  destruct (below_2 x Hx) as [-> | ->], (below_2 y Hy) as [-> | ->];
    apply list_elem_of_here.
Qed.

Lemma well_formed_wide : well_formed 2 2 params_wide storage_wide.
Proof. repeat split; done. Qed.

Lemma well_formed_wide' : well_formed 2 2 params_wide storage_wide'.
Proof. repeat split; done. Qed.

Lemma valid_grid_wide : valid_grid 2 2 grid_wide.
Proof.
  split.
  - repeat constructor; apply valid_group_2x2.
  - cbn. apply NoDup_cons. split; [|apply NoDup_singleton].
    intros H. by apply list_elem_of_singleton in H.
Qed.

Lemma covers_wide : covers 2 2 params_wide grid_wide.
Proof.
  intros x y Hx Hy. cbn in Hx, Hy.
  destruct (below_4 x Hx) as [-> | [-> | [-> | ->]]],
           (below_2 y Hy) as [-> | ->];
    first [apply list_elem_of_here | apply list_elem_of_further, list_elem_of_here].
Qed.

(** ** Scenario A *)

(** C1: in scenario A two pixels hold the sentinel and the workgroup has
    four invocations; each of them adds the length of the missing list, and
    the counter ends at 8. *)
Theorem counter_scenario_A :
  ∃ s', dispatch 2 2 params_A [group_2x2 (0, 0)] storage_A = Some s'
    ∧ belowMinMatrix_length s' = 8
    ∧ sentinel_count (pixelData storage_A) = 2
    ∧ chunk_size 2 2 = 4.
Proof. eexists. by vm_compute. Qed.

(** C2, as the spec has it, fails: the two sentinels are replaced by neither
    5 nor 3. *)
Lemma scenario_A_not_filled_from_pixels :
  ∃ s', dispatch 2 2 params_A [group_2x2 (0, 0)] storage_A = Some s'
    ∧ resultArrayList s' = [5; 16777216; 3; 16777216]
    ∧ ¬ (∃ m, (m = 5 ∨ m = 3)
              ∧ resultArrayList s' = [5; m; 3; m]
              ∧ belowMinMatrix_length s' = 2).
Proof.
  eexists. split; [by vm_compute|]. split; [done|].
  intros (m & Hm & Hr & _). cbn in Hr. injection Hr as <-.
  by destruct Hm.
Qed.

Lemma dim_pixels_A i :
  f32_lt (srgbLuminance (RGBA 1 0 0 0))
         (srgbLuminance (read 0 [5; 0; 3; 0] i)) = false.
Proof.
  unfold read. destruct (N.to_nat i) as [|[|[|[|n]]]]; by vm_compute.
Qed.

(** C2, as the shader has it: whatever the order of the invocations, the
    two sentinels of scenario A are replaced by the seed [RGBA 1 0 0 0],
    because 5 and 3 have luminance 0, and the missing list has length 2. *)
Theorem scenario_A_filled_with_seed (d : N) g s :
  let params := {| width := 2; height := 2; debug := d |} in
  valid_group 2 2 g → group_id g = (0, 0) →
  well_formed 2 2 params s → pixelData s = [5; 0; 3; 0] →
  ∃ s', dispatch 2 2 params [g] s = Some s'
    ∧ resultArrayList s' = [5; RGBA 1 0 0 0; 3; RGBA 1 0 0 0]
    ∧ vectors_length (at_barrier 2 2 params g s) = 2.
Proof.
  intros params Hg Eid Hwf Epx.
  assert (Hgrid : valid_grid 2 2 [g]).
  { split; [by apply Forall_singleton|]. cbn. apply NoDup_singleton. }
  destruct (dispatch_spec 2 2 params [g] s Hwf Hgrid)
    as (s' & Hd & Hwf' & _ & _ & Wr).
  assert (Elm : local_max (at_barrier 2 2 params g s) = RGBA 1 0 0 0).
  { rewrite at_barrier_scan. apply scan_fold_keeps_seed.
    - by left.
    - intros lid _ _. rewrite Epx. apply dim_pixels_A.
    - intros E. destruct Hg as [Hb _]. apply Permutation_length in Hb.
      by rewrite E in Hb. }
  exists s'. split; [done|]. split.
  - assert (Hin : g ∈ [g]) by left.
    pose proof (Wr g 0 0 Hin eq_refl eq_refl Eid) as R0.
    pose proof (Wr g 1 0 Hin eq_refl eq_refl Eid) as R1.
    pose proof (Wr g 0 1 Hin eq_refl eq_refl Eid) as R2.
    pose proof (Wr g 1 1 Hin eq_refl eq_refl Eid) as R3.
    rewrite Epx, Elm in R0, R1, R2, R3.
    destruct Hwf' as (_ & _ & _ & _ & _ & _ & Hlen).
    destruct (resultArrayList s') as [|a [|b [|c [|e [|]]]]]; try done.
    vm_compute in R0, R1, R2, R3. vm_compute. congruence.
  - rewrite at_barrier_length; [|done|done]. rewrite Epx, Eid.
    by vm_compute.
Qed.

(** The natural order of scenario A. *)
Lemma scenario_A_filled_with_seed_witness :
  valid_group 2 2 (group_2x2 (0, 0))
  ∧ well_formed 2 2 params_A storage_A
  ∧ ∃ s', dispatch 2 2 params_A [group_2x2 (0, 0)] storage_A = Some s'
      ∧ resultArrayList s' = [5; RGBA 1 0 0 0; 3; RGBA 1 0 0 0]
      ∧ vectors_length (at_barrier 2 2 params_A (group_2x2 (0, 0)) storage_A)
        = 2.
Proof.
  split; [apply valid_group_2x2|]. split; [apply well_formed_A|].
  apply (scenario_A_filled_with_seed 1 (group_2x2 (0, 0)) storage_A).
  - apply valid_group_2x2.
  - reflexivity.
  - apply well_formed_A.
  - reflexivity.
Defined.

(** ** Witnesses on the scenarios *)

(** C3 on the 4 x 2 image. *)
Lemma missing_pixels_get_local_max_witness :
  well_formed 2 2 params_wide storage_wide
  ∧ valid_grid 2 2 grid_wide
  ∧ covers 2 2 params_wide grid_wide
  ∧ ∃ s', dispatch 2 2 params_wide grid_wide storage_wide = Some s'
      ∧ ∀ x y, x < width params_wide → y < height params_wide →
          let pixel := read 0 (pixelData storage_wide)
                         (pixel_index params_wide x y) in
          ∃ g, g ∈ grid_wide ∧ group_id g = tile_of 2 2 x y
            ∧ pixelData storage_wide !! N.to_nat (pixel_index params_wide x y)
              = Some pixel
            ∧ resultArrayList s' !! N.to_nat (pixel_index params_wide x y)
              = Some (if pixel =? 0
                      then local_max (at_barrier 2 2 params_wide g
                                        storage_wide)
                      else pixel).
Proof.
  split; [apply well_formed_wide|]. split; [apply valid_grid_wide|].
  split; [apply covers_wide|].
  apply (missing_pixels_get_local_max 2 2 params_wide grid_wide storage_wide).
  - apply well_formed_wide.
  - apply valid_grid_wide.
  - apply covers_wide.
Defined.

(** C9 on scenario A. *)
Lemma result_has_no_sentinel_witness :
  well_formed 2 2 params_A storage_A
  ∧ valid_grid 2 2 [group_2x2 (0, 0)]
  ∧ covers 2 2 params_A [group_2x2 (0, 0)]
  ∧ ∃ s', dispatch 2 2 params_A [group_2x2 (0, 0)] storage_A = Some s'
      ∧ length (resultArrayList s')
        = N.to_nat (width params_A * height params_A)
      ∧ ∀ k v, resultArrayList s' !! k = Some v → v ≠ 0.
Proof.
  split; [apply well_formed_A|]. split; [apply valid_grid_A|].
  split; [apply covers_A|].
  apply (result_has_no_sentinel 2 2 params_A [group_2x2 (0, 0)] storage_A).
  - apply well_formed_A.
  - apply valid_grid_A.
  - apply covers_A.
Defined.

Lemma wide_inputs_agree_left x y :
  x < width params_wide → y < height params_wide →
  tile_of 2 2 x y = group_id (group_2x2 (0, 0)) →
  pixelData storage_wide !! N.to_nat (pixel_index params_wide x y)
  = pixelData storage_wide' !! N.to_nat (pixel_index params_wide x y).
Proof.
  intros Hx Hy. cbn in Hx, Hy.
  destruct (below_4 x Hx) as [-> | [-> | [-> | ->]]],
           (below_2 y Hy) as [-> | ->]; by vm_compute.
Qed.

(** C8 on the left tile of the 4 x 2 image, for the two inputs that differ
    on the right tile. *)
Lemma tiles_do_not_interfere_witness :
  well_formed 2 2 params_wide storage_wide
  ∧ well_formed 2 2 params_wide storage_wide'
  ∧ valid_grid 2 2 grid_wide
  ∧ group_2x2 (0, 0) ∈ grid_wide
  ∧ ∃ s1' s2',
      dispatch 2 2 params_wide grid_wide storage_wide = Some s1'
      ∧ dispatch 2 2 params_wide grid_wide storage_wide' = Some s2'
      ∧ ∀ x y, x < width params_wide → y < height params_wide →
          tile_of 2 2 x y = group_id (group_2x2 (0, 0)) →
          resultArrayList s1' !! N.to_nat (pixel_index params_wide x y)
          = resultArrayList s2' !! N.to_nat (pixel_index params_wide x y).
Proof.
  split; [apply well_formed_wide|]. split; [apply well_formed_wide'|].
  split; [apply valid_grid_wide|]. split; [apply list_elem_of_here|].
  apply (tiles_do_not_interfere 2 2 params_wide grid_wide
           storage_wide storage_wide' (group_2x2 (0, 0))).
  - apply well_formed_wide.
  - apply well_formed_wide'.
  - apply valid_grid_wide.
  - apply list_elem_of_here.
  - apply wide_inputs_agree_left.
Defined.

(** C7 on scenario A. *)
Lemma second_run_is_noop_witness :
  well_formed 2 2 params_A storage_A
  ∧ valid_grid 2 2 [group_2x2 (0, 0)]
  ∧ covers 2 2 params_A [group_2x2 (0, 0)]
  ∧ ∃ s', dispatch 2 2 params_A [group_2x2 (0, 0)] storage_A = Some s'
      ∧ ∀ t, well_formed 2 2 params_A t →
          pixelData t = resultArrayList s' →
          ∃ t', dispatch 2 2 params_A [group_2x2 (0, 0)] t = Some t'
            ∧ resultArrayList t' = pixelData t
            ∧ belowMinMatrix_length t' = belowMinMatrix_length t.
Proof.
  split; [apply well_formed_A|]. split; [apply valid_grid_A|].
  split; [apply covers_A|].
  apply (second_run_is_noop 2 2 params_A [group_2x2 (0, 0)]
           [group_2x2 (0, 0)] storage_A).
  - apply well_formed_A.
  - apply valid_grid_A.
  - apply covers_A.
  - apply valid_grid_A.
  - apply covers_A.
Defined.

(** C6, as the spec has it, fails: of two tiles in one column the entry 0
    ends with the count of the lower tile and the entry 1 is never
    written. *)
Lemma debug_entry_not_at_linear_index :
  ∃ s', dispatch 1 1 params_narrow grid_column storage_column = Some s'
    ∧ debugData s' = [0; 9]
    ∧ tile_missing 1 1 params_narrow (pixelData storage_column) (0, 0) = 1
    ∧ linear_workgroup_index 1 (0, 0) = 0
    ∧ ¬ (∀ g, g ∈ grid_column →
           debugData s' !! N.to_nat (linear_workgroup_index 1 (group_id g))
           = Some (tile_missing 1 1 params_narrow
                     (pixelData storage_column) (group_id g))).
Proof.
  eexists. split; [by vm_compute|]. repeat split.
  intros H. specialize (H (group_1x1 (0, 0)) (list_elem_of_here _ _)).
  by vm_compute in H.
Qed.

(** The debug entries of the 4 x 2 image, whose two tiles lie in one row. *)
Lemma debug_entry_of_workgroup_x_witness :
  well_formed 2 2 params_wide storage_wide
  ∧ valid_grid 2 2 grid_wide
  ∧ ∃ s', dispatch 2 2 params_wide grid_wide storage_wide = Some s'
      ∧ (debug params_wide ≠ 1 → debugData s' = debugData storage_wide)
      ∧ (∀ j, (∀ g, g ∈ grid_wide → fst (group_id g) ≠ j) →
           debugData s' !! N.to_nat j = debugData storage_wide !! N.to_nat j)
      ∧ (debug params_wide = 1 →
         ∀ pre g post, grid_wide = pre ++ g :: post →
           (∀ g', g' ∈ post → fst (group_id g') ≠ fst (group_id g)) →
           (N.to_nat (fst (group_id g)) < length (debugData storage_wide))%nat →
           debugData s' !! N.to_nat (fst (group_id g))
           = Some (tile_missing 2 2 params_wide (pixelData storage_wide)
                     (group_id g))).
Proof.
  split; [apply well_formed_wide|]. split; [apply valid_grid_wide|].
  apply (debug_entry_of_workgroup_x 2 2 params_wide grid_wide storage_wide).
  - apply well_formed_wide.
  - apply valid_grid_wide.
Defined.

(** C4, as the spec has it, fails: after the barrier the invocation with
    local id (1, 0), which lies outside the 1 x 2 image, fills a pixel, adds
    to the counter and writes the debug entry. *)
Lemma outside_image_writes_after_barrier :
  let inv := invocation 2 2 (0, 0) (1, 0) in
  let st := before_barrier 2 2 params_narrow (0, 0) natural_2x2
              (storage_narrow, workgroup_init 2 2) in
  in_bounds params_narrow inv = false
  ∧ ∃ s', main_after_barrier 2 2 params_narrow inv (snd st) (fst st) = Some s'
      ∧ resultArrayList (fst st) = [0; 0]
      ∧ resultArrayList s' = [0; 16777216]
      ∧ belowMinMatrix_length (fst st) = 0
      ∧ belowMinMatrix_length s' = 2
      ∧ debugData (fst st) = [0]
      ∧ debugData s' = [2].
Proof. cbn zeta. split; [done|]. eexists. by vm_compute. Qed.

(** The same invocation before the barrier. *)
Lemma outside_image_no_write_before_barrier_witness :
  in_bounds params_narrow (invocation 2 2 (0, 0) (1, 0)) = false
  ∧ ∃ w', main_before_barrier params_narrow (invocation 2 2 (0, 0) (1, 0))
            (storage_narrow, workgroup_init 2 2) = (storage_narrow, w')
      ∧ vectors w' = vectors (workgroup_init 2 2)
      ∧ vectors_length w' = vectors_length (workgroup_init 2 2).
Proof.
  split; [reflexivity|].
  apply (outside_image_no_write_before_barrier params_narrow
           (invocation 2 2 (0, 0) (1, 0)) storage_narrow
           (workgroup_init 2 2)).
  reflexivity.
Defined.

(** C10 on scenario A. *)
Lemma missing_list_fits_vectors_witness :
  valid_group 2 2 (group_2x2 (0, 0))
  ∧ let g := group_2x2 (0, 0) in
    let len := vectors_length (at_barrier 2 2 params_A g storage_A) in
    (∀ pre lid post, order_before g = pre ++ lid :: post →
       let w := snd (before_barrier 2 2 params_A (group_id g) pre
                       (storage_A, workgroup_init 2 2)) in
       vectors_length w
       = N.of_nat (length (missing_list 2 2 params_A (pixelData storage_A)
                             (group_id g) pre))
       ∧ vectors_length w < chunk_size 2 2
       ∧ (N.to_nat (vectors_length w) < length (vectors w))%nat)
    ∧ len = tile_missing 2 2 params_A (pixelData storage_A) (group_id g)
    ∧ len ≤ chunk_size 2 2
    ∧ (∀ lid, lid ∈ order_after g →
         strided (N.to_nat len)
                 (local_index (invocation 2 2 (group_id g) lid))
                 len (chunk_size 2 2)
         = Some (loop_reads 2 2 (group_id g) len lid))
    ∧ order_after g ≫= loop_reads 2 2 (group_id g) len ≡ₚ seqN len.
Proof.
  split; [apply valid_group_2x2|].
  apply (missing_list_fits_vectors 2 2 params_A (group_2x2 (0, 0)) storage_A).
  - reflexivity.
  - reflexivity.
  - reflexivity.
  - apply valid_group_2x2.
Defined.

(** C5 on the colour (10, 20, 30, 40). *)
Lemma colorVector_RGBA_exchanges_green_blue_witness :
  N.land (shr (RGBA 10 20 30 40) 24) 255 = 10
  ∧ N.land (shr (RGBA 10 20 30 40) 16) 255 = 20
  ∧ N.land (shr (RGBA 10 20 30 40) 8) 255 = 30
  ∧ N.land (shr (RGBA 10 20 30 40) 0) 255 = 40
  ∧ colorVector (RGBA 10 20 30 40)
    = Vec3f (f32_div (f32_of_u32 10) f32_255)
            (f32_div (f32_of_u32 30) f32_255)
            (f32_div (f32_of_u32 20) f32_255).
Proof.
  apply (colorVector_RGBA_exchanges_green_blue 10 20 30 40); reflexivity.
Defined.

(** * Properties of the fullscreen toggle *)

(** A second [close()] right after a [close()] does nothing: it neither
    calls [exitFullscreen] nor unbinds anything. *)
Theorem fullscreen_close_twice d s :
  Fullscreen.close d (Fullscreen.close d s) = Fullscreen.close d s.
Proof.
  destruct s as [o [n|] a cs], o, d; reflexivity.
Qed.

(** When [fullscreenchange] arrives while the instance is open (the user
    left fullscreen with Escape), the callback closes the instance and
    unbinds the listener without calling [exitFullscreen]. *)
Theorem fullscreen_escape_does_not_exit d s :
  Fullscreen.isOpen s = true →
  let s' := Fullscreen.on_fullscreenchange d s in
  Fullscreen.isOpen s' = false
  ∧ Fullscreen.unbindFullscreenEvent s' = None
  ∧ Fullscreen.calls s'
    = Fullscreen.calls s
      ++ match Fullscreen.unbindFullscreenEvent s with
         | Some n => [Fullscreen.Unbind n]
         | None => []
         end.
Proof.
  destruct s as [o [n|] a cs]; cbn; intros ->; cbn;
    by rewrite ?app_nil_r.
Qed.

Lemma fullscreen_escape_does_not_exit_witness :
  let s := Fullscreen.run true Fullscreen.constructor
             [Fullscreen.Toggle; Fullscreen.Event] in
  Fullscreen.isOpen s = true
  ∧ let s' := Fullscreen.on_fullscreenchange true s in
    Fullscreen.isOpen s' = false
    ∧ Fullscreen.unbindFullscreenEvent s' = None
    ∧ Fullscreen.calls s'
      = Fullscreen.calls s
        ++ match Fullscreen.unbindFullscreenEvent s with
           | Some n => [Fullscreen.Unbind n]
           | None => []
           end.
Proof.
  split; [reflexivity|].
  apply (fullscreen_escape_does_not_exit true
           (Fullscreen.run true Fullscreen.constructor
              [Fullscreen.Toggle; Fullscreen.Event])).
  reflexivity.
Defined.



(** ** Listeners are unbound once, after they were registered *)

Lemma split_snoc {A} (pre post cs : list A) x c :
  cs ++ [c] = pre ++ x :: post →
  (post = [] ∧ pre = cs ∧ x = c)
  ∨ ∃ post', post = post' ++ [c] ∧ cs = pre ++ x :: post'.
Proof.
  destruct post as [|y post _] using rev_ind; intros E; symmetry in E.
  - left. apply app_inj_tail in E as [-> ->]. done.
  - right. exists post.
    change (pre ++ x :: post ++ [y]) with (pre ++ (x :: post) ++ [y]) in E.
    rewrite app_assoc in E. by apply app_inj_tail in E as [<- ->].
Qed.

Lemma fullscreen_unbound_snoc cs c :
  Fullscreen.unbound (cs ++ [c])
  = Fullscreen.unbound cs
    ++ match c with Fullscreen.Unbind n => [n] | _ => [] end.
Proof.
  unfold Fullscreen.unbound. rewrite omap_app. by destruct c.
Qed.

Lemma fullscreen_elem_of_unbound cs n :
  n ∈ Fullscreen.unbound cs ↔ Fullscreen.Unbind n ∈ cs.
Proof.
  unfold Fullscreen.unbound. rewrite list_elem_of_omap. split.
  - intros (c & Hc & E). destruct c; try done. by injection E as ->.
  - intros H. by exists (Fullscreen.Unbind n).
Qed.

Lemma fullscreen_unbound_below s n :
  Fullscreen.consistent s → Fullscreen.Unbind n ∈ Fullscreen.calls s →
  (n < Fullscreen.added s)%nat.
Proof.
  intros (Ha & _ & _ & Hd) Hin.
  apply list_elem_of_split in Hin as (pre & post & E).
  apply Ha. specialize (Hd pre n post E).
  rewrite E. apply elem_of_app. by left.
Qed.

Lemma fullscreen_consistent_set_isOpen b s :
  Fullscreen.consistent s → Fullscreen.consistent (Fullscreen.set_isOpen b s).
Proof. done. Qed.

Lemma fullscreen_consistent_call s c :
  c = Fullscreen.ExitFullscreen ∨ c = Fullscreen.RequestFullscreen →
  Fullscreen.consistent s → Fullscreen.consistent (Fullscreen.call c s).
Proof.
  intros Hc (Ha & Hb & Hn & Hd). unfold Fullscreen.consistent. cbn.
  split; [|split; [|split]].
  - intros n [H|H]%elem_of_app; [by apply Ha|].
    apply list_elem_of_singleton in H. by destruct Hc; subst.
  - intros n Hu. destruct (Hb n Hu) as [H1 H2]. split.
    + apply elem_of_app. by left.
    + intros [H|H]%elem_of_app; [done|].
      apply list_elem_of_singleton in H. by destruct Hc; subst.
  - rewrite fullscreen_unbound_snoc.
    destruct Hc; subst; by rewrite app_nil_r.
  - intros pre n post E.
    apply split_snoc in E as [(_ & _ & E)|(post' & _ & E)].
    + by destruct Hc; subst.
    + by apply (Hd pre n post').
Qed.

Lemma fullscreen_consistent_open s :
  Fullscreen.consistent s → Fullscreen.consistent (Fullscreen.open s).
Proof.
  intros Hs. pose proof Hs as (Ha & Hb & Hn & Hd).
  unfold Fullscreen.open, Fullscreen.addEvent. cbn [fst snd].
  apply fullscreen_consistent_call; [by right|].
  unfold Fullscreen.consistent. cbn. split; [|split; [|split]].
  - intros n [H|H]%elem_of_app; [apply Ha in H; lia|].
    apply list_elem_of_singleton in H. injection H as ->. lia.
  - intros n [= <-]. split.
    + apply elem_of_app. right. left.
    + intros [H|H]%elem_of_app.
      * apply (fullscreen_unbound_below s) in H; [lia|done].
      * by apply list_elem_of_singleton in H.
  - rewrite fullscreen_unbound_snoc. by rewrite app_nil_r.
  - intros pre n post E.
    apply split_snoc in E as [(_ & _ & E)|(post' & _ & E)]; [done|].
    by apply (Hd pre n post').
Qed.

Lemma fullscreen_consistent_close d s :
  Fullscreen.consistent s → Fullscreen.consistent (Fullscreen.close d s).
Proof.
  intros Hs. unfold Fullscreen.close.
  apply fullscreen_consistent_set_isOpen.
  set (s1 := if Fullscreen.isOpen s && d
             then Fullscreen.call Fullscreen.ExitFullscreen s else s).
  assert (H1 : Fullscreen.consistent s1).
  { unfold s1. destruct (_ && _); [|done].
    apply fullscreen_consistent_call; [by left|done]. }
  destruct (Fullscreen.unbindFullscreenEvent s1) as [n|] eqn:Hu; [|done].
  destruct H1 as (Ha & Hb & Hn & Hd). destruct (Hb n Hu) as [Hadd Hnot].
  unfold Fullscreen.consistent. cbn. split; [|split; [|split]].
  - intros m [H|H]%elem_of_app; [by apply Ha|].
    by apply list_elem_of_singleton in H.
  - done.
  - rewrite fullscreen_unbound_snoc. apply NoDup_app.
    split; [done|]. split; [|apply NoDup_singleton].
    intros m Hm ->%list_elem_of_singleton.
    by apply fullscreen_elem_of_unbound in Hm.
  - intros pre m post E.
    apply split_snoc in E as [(_ & -> & [= ->])|(post' & _ & E)]; [done|].
    by apply (Hd pre m post').
Qed.

Lemma fullscreen_consistent_step d s o :
  Fullscreen.consistent s → Fullscreen.consistent (Fullscreen.step d s o).
Proof.
  intros Hs. destruct o; cbn.
  - unfold Fullscreen.toggle. destruct (Fullscreen.isOpen s);
      [by apply fullscreen_consistent_close
      |by apply fullscreen_consistent_open].
  - by apply fullscreen_consistent_open.
  - by apply fullscreen_consistent_close.
  - unfold Fullscreen.on_fullscreenchange. destruct (Fullscreen.isOpen s).
    + by apply fullscreen_consistent_close, fullscreen_consistent_set_isOpen.
    + by apply fullscreen_consistent_set_isOpen.
Qed.

Lemma fullscreen_consistent_run d ops : ∀ s,
  Fullscreen.consistent s → Fullscreen.consistent (Fullscreen.run d s ops).
Proof.
  induction ops as [|o ops IH]; intros s Hs; [done|].
  apply IH. by apply fullscreen_consistent_step.
Qed.

Lemma fullscreen_consistent_constructor :
  Fullscreen.consistent Fullscreen.constructor.
Proof.
  unfold Fullscreen.consistent. cbn. split; [|split; [|split]].
  - intros n H. by apply elem_of_nil in H.
  - done.
  - apply NoDup_nil_2.
  - intros pre n post E. by destruct pre.
Qed.

(** Whatever methods are called on a new instance and whenever
    [fullscreenchange] fires, no listener is unbound twice and every
    unbinding comes after the registration of its listener. *)
Theorem fullscreen_unbinds_once_after_adding d ops :
  let s := Fullscreen.run d Fullscreen.constructor ops in
  NoDup (Fullscreen.unbound (Fullscreen.calls s))
  ∧ ∀ pre n post,
      Fullscreen.calls s = pre ++ Fullscreen.Unbind n :: post →
      Fullscreen.AddEvent n ∈ pre.
Proof.
  cbn zeta.
  destruct (fullscreen_consistent_run d ops Fullscreen.constructor
              fullscreen_consistent_constructor) as (_ & _ & Hn & Hd).
  done.
Qed.

(** ** A listener whose unbind function is overwritten stays bound *)

Lemma fullscreen_leaked_close d n s :
  Fullscreen.leaked n s → Fullscreen.leaked n (Fullscreen.close d s).
Proof.
  intros (Hlt & Hu & Hnot). unfold Fullscreen.close, Fullscreen.leaked.
  destruct s as [o u a cs]. cbn in *.
  destruct (o && d); cbn; destruct u as [m|]; cbn;
    (split; [done|]); (split; [done|]);
    rewrite ?elem_of_app, ?list_elem_of_singleton;
    intuition congruence.
Qed.

Lemma fullscreen_leaked_open n s :
  Fullscreen.leaked n s → Fullscreen.leaked n (Fullscreen.open s).
Proof.
  intros (Hlt & Hu & Hnot). unfold Fullscreen.open, Fullscreen.leaked.
  destruct s as [o u a cs]. cbn in *.
  split; [lia|]. split; [intros [= ->]; lia|].
  rewrite !elem_of_app, !list_elem_of_singleton.
  intuition congruence.
Qed.

Lemma fullscreen_leaked_step d n s o :
  Fullscreen.leaked n s → Fullscreen.leaked n (Fullscreen.step d s o).
Proof.
  intros Hs. destruct o; cbn.
  - unfold Fullscreen.toggle. destruct (Fullscreen.isOpen s);
      [by apply fullscreen_leaked_close|by apply fullscreen_leaked_open].
  - by apply fullscreen_leaked_open.
  - by apply fullscreen_leaked_close.
  - unfold Fullscreen.on_fullscreenchange. destruct (Fullscreen.isOpen s).
    + by apply fullscreen_leaked_close.
    + done.
Qed.

Lemma fullscreen_leaked_run d n ops : ∀ s,
  Fullscreen.leaked n s → Fullscreen.leaked n (Fullscreen.run d s ops).
Proof.
  induction ops as [|o ops IH]; intros s Hs; [done|].
  apply IH. by apply fullscreen_leaked_step.
Qed.

(** When [open()] is called twice in a row, the listener of the first call
    is never unbound, whatever happens afterwards: the second call
    overwrites the only reference to its unbind function. *)
Theorem fullscreen_open_twice_leaks_listener d before after :
  let s := Fullscreen.run d Fullscreen.constructor before in
  let s' := Fullscreen.run d (Fullscreen.open (Fullscreen.open s)) after in
  Fullscreen.AddEvent (Fullscreen.added s)
    ∈ Fullscreen.calls (Fullscreen.open (Fullscreen.open s))
  ∧ Fullscreen.Unbind (Fullscreen.added s) ∉ Fullscreen.calls s'.
Proof.
  cbn zeta.
  set (s := Fullscreen.run d Fullscreen.constructor before).
  assert (Hs : Fullscreen.consistent s)
    by apply fullscreen_consistent_run, fullscreen_consistent_constructor.
  split.
  - unfold Fullscreen.open, Fullscreen.addEvent. cbn.
    rewrite !elem_of_app, !list_elem_of_singleton. tauto.
  - apply (fullscreen_leaked_run d (Fullscreen.added s) after).
    unfold Fullscreen.leaked, Fullscreen.open, Fullscreen.addEvent. cbn.
    split; [lia|]. split; [intros [= E]; lia|].
    rewrite !elem_of_app, !list_elem_of_singleton.
    intros [[[[H|H]|H]|H]|H]; try done.
    apply (fullscreen_unbound_below s) in H; [lia|done].
Qed.

(** * Properties of the stock comparison sample *)

Lemma compare_success_match {D} n m (d : D) s :
  CompareSample.match_name n = Some m →
  CompareSample.success n d s = Some (CompareSample.store m d s).
Proof. intros H. unfold CompareSample.success. by rewrite H. Qed.

Lemma compare_match_name_unfold n :
  CompareSample.match_name n
  = if String.prefix "msft" n then Some "msft"%string
    else if String.prefix "aapl" n then Some "aapl"%string
    else if String.prefix "goog" n then Some "goog"%string
    else match n with
         | EmptyString => None
         | String _ rest => CompareSample.match_name rest
         end.
Proof. by destruct n. Qed.

Lemma compare_match_name_cases n m :
  CompareSample.match_name n = Some m →
  m = "msft"%string ∨ m = "aapl"%string ∨ m = "goog"%string.
Proof.
  induction n as [|c n IH]; rewrite compare_match_name_unfold;
    repeat (destruct (String.prefix _ _); [intros [= <-]; tauto|]);
    [done|exact IH].
Qed.

(** The three results may arrive in any order: the series end at the index
    of their name in [names], and the chart is created once, from all
    three. *)
Theorem compare_arrival_order_is_irrelevant {D} n1 n2 n3 (d1 d2 d3 : D)
    series :
  CompareSample.match_name n1 = Some "msft"%string →
  CompareSample.match_name n2 = Some "aapl"%string →
  CompareSample.match_name n3 = Some "goog"%string →
  series ≡ₚ [(n1, d1); (n2, d2); (n3, d3)] →
  let all := [Some {| CompareSample.name := "MSFT"%string;
                      CompareSample.data := d1 |};
              Some {| CompareSample.name := "AAPL"%string;
                      CompareSample.data := d2 |};
              Some {| CompareSample.name := "GOOG"%string;
                      CompareSample.data := d3 |}] in
  CompareSample.forEach_success series CompareSample.initial
  = Some {| CompareSample.seriesOptions := all;
            CompareSample.seriesCounter := 3;
            CompareSample.charts := [all] |}.
Proof.
  intros H1 H2 H3 Hp. symmetry in Hp.
  apply permutations_Permutation in Hp. cbn in Hp.
  rewrite !elem_of_cons in Hp.
  destruct Hp as [->|[->|[->|[->|[->|[->|Hp]]]]]];
    [..|by apply elem_of_nil in Hp];
    cbn [CompareSample.forEach_success];
    repeat (erewrite compare_success_match by eassumption;
            cbn [mbind option_bind]);
    reflexivity.
Qed.

Lemma compare_arrival_order_is_irrelevant_witness :
  CompareSample.match_name "goog" = Some "goog"%string
  ∧ [("goog"%string, 3%nat); ("msft"%string, 1%nat); ("aapl"%string, 2%nat)]
    ≡ₚ [("msft"%string, 1%nat); ("aapl"%string, 2%nat);
        ("goog"%string, 3%nat)]
  ∧ let all := [Some {| CompareSample.name := "MSFT"%string;
                        CompareSample.data := 1%nat |};
                Some {| CompareSample.name := "AAPL"%string;
                        CompareSample.data := 2%nat |};
                Some {| CompareSample.name := "GOOG"%string;
                        CompareSample.data := 3%nat |}] in
    CompareSample.forEach_success
      [("goog"%string, 3%nat); ("msft"%string, 1%nat); ("aapl"%string, 2%nat)]
      CompareSample.initial
    = Some {| CompareSample.seriesOptions := all;
              CompareSample.seriesCounter := 3;
              CompareSample.charts := [all] |}.
Proof.
  assert (Hp : [("goog"%string, 3%nat); ("msft"%string, 1%nat);
                ("aapl"%string, 2%nat)]
               ≡ₚ [("msft"%string, 1%nat); ("aapl"%string, 2%nat);
                   ("goog"%string, 3%nat)]).
  { exact (Permutation_cons_append
             [("msft"%string, 1%nat); ("aapl"%string, 2%nat)]
             ("goog"%string, 3%nat)). }
  split; [reflexivity|]. split; [exact Hp|].
  apply (compare_arrival_order_is_irrelevant "msft" "aapl" "goog" 1%nat 2%nat
           3%nat);
    [reflexivity|reflexivity|reflexivity|exact Hp].
Defined.

Lemma compare_forEach_app {D} (a b : list (string * D)) : ∀ s,
  CompareSample.forEach_success (a ++ b) s
  = CompareSample.forEach_success a s
      ≫= CompareSample.forEach_success b.
Proof.
  induction a as [|[n d] a IH]; intros s; [done|].
  cbn [app CompareSample.forEach_success].
  destruct (CompareSample.success n d s) as [s1|]; [|done].
  cbn. apply IH.
Qed.

Lemma compare_success_counter {D} n (d : D) s s' :
  CompareSample.success n d s = Some s' →
  CompareSample.seriesCounter s' = S (CompareSample.seriesCounter s)
  ∧ CompareSample.charts s'
    = if (S (CompareSample.seriesCounter s) =? 3)%nat
      then CompareSample.charts s ++ [CompareSample.seriesOptions s']
      else CompareSample.charts s.
Proof.
  destruct (CompareSample.match_name n) as [m|] eqn:Em;
    [|by unfold CompareSample.success; rewrite Em].
  rewrite (compare_success_match n m d s Em). intros [= <-].
  unfold CompareSample.store.
  change (length CompareSample.names) with 3%nat.
  cbn [CompareSample.seriesCounter]. rewrite Nat.add_1_r.
  by destruct (S (CompareSample.seriesCounter s) =? 3)%nat.
Qed.

Lemma compare_forEach_counter {D} (series : list (string * D)) : ∀ s s',
  CompareSample.forEach_success series s = Some s' →
  CompareSample.seriesCounter s'
  = (CompareSample.seriesCounter s + length series)%nat.
Proof.
  induction series as [|[n d] series IH]; intros s s' H.
  - injection H as <-. cbn. lia.
  - cbn in H. destruct (CompareSample.success n d s) as [s1|] eqn:E; [|done].
    cbn in H. rewrite (IH s1 s' H).
    apply compare_success_counter in E as [-> _]. cbn [length]. lia.
Qed.

Lemma compare_charts_frozen {D} (series : list (string * D)) : ∀ s s',
  (3 ≤ CompareSample.seriesCounter s)%nat →
  CompareSample.forEach_success series s = Some s' →
  CompareSample.charts s' = CompareSample.charts s.
Proof.
  induction series as [|[n d] series IH]; intros s s' Hc H.
  - by injection H as <-.
  - cbn in H. destruct (CompareSample.success n d s) as [s1|] eqn:E; [|done].
    cbn in H. apply compare_success_counter in E as [Ec Ech].
    rewrite (IH s1 s' ltac:(lia) H), Ech.
    by destruct (Nat.eqb_spec (S (CompareSample.seriesCounter s)) 3); [lia|].
Qed.

Lemma compare_charts_early {D} (series : list (string * D)) : ∀ s s',
  (CompareSample.seriesCounter s + length series < 3)%nat →
  CompareSample.forEach_success series s = Some s' →
  CompareSample.charts s' = CompareSample.charts s.
Proof.
  induction series as [|[n d] series IH]; intros s s' Hc H.
  - by injection H as <-.
  - cbn in H. destruct (CompareSample.success n d s) as [s1|] eqn:E; [|done].
    cbn in H. cbn [length] in Hc.
    apply compare_success_counter in E as [Ec Ech].
    rewrite (IH s1 s' ltac:(lia) H), Ech.
    by destruct (Nat.eqb_spec (S (CompareSample.seriesCounter s)) 3); [lia|].
Qed.

(** [createChart] runs exactly once, when the third result is stored, with
    the series stored up to then; it does not run for fewer than three
    results, and later results never reach a chart. *)
Theorem compare_chart_created_at_third_result {D}
    (series : list (string * D)) s' :
  CompareSample.forEach_success series CompareSample.initial = Some s' →
  CompareSample.seriesCounter s' = length series
  ∧ ((length series < 3)%nat → CompareSample.charts s' = [])
  ∧ ∀ first rest, series = first ++ rest → length first = 3%nat →
      ∃ s3, CompareSample.forEach_success first CompareSample.initial
            = Some s3
        ∧ CompareSample.charts s' = [CompareSample.seriesOptions s3].
Proof.
  intros H. split; [|split].
  - by rewrite (compare_forEach_counter series _ _ H).
  - intros Hlt.
    by rewrite (compare_charts_early series CompareSample.initial s' Hlt H).
  - intros first rest -> Hlen. rewrite compare_forEach_app in H.
    destruct (CompareSample.forEach_success first CompareSample.initial)
      as [s3|] eqn:E3; [|done].
    cbn in H. exists s3. split; [done|].
    rewrite (compare_charts_frozen rest s3 s'); [| |done].
    + destruct first as [|[n1 d1] [|[n2 d2] [|[n3 d3] [|]]]]; try done.
      cbn in E3.
      destruct (CompareSample.success n1 d1 _) as [t1|] eqn:E1; [|done].
      cbn in E3.
      destruct (CompareSample.success n2 d2 _) as [t2|] eqn:E2; [|done].
      cbn in E3.
      destruct (CompareSample.success n3 d3 _) as [t3|] eqn:E; [|done].
      cbn in E3. injection E3 as <-.
      apply compare_success_counter in E1 as [C1 Ch1].
      apply compare_success_counter in E2 as [C2 Ch2].
      apply compare_success_counter in E as [C3 Ch3].
      rewrite C2, C1 in Ch3. rewrite C1 in Ch2.
      cbn in Ch1, Ch2, Ch3. by rewrite Ch3, Ch2, Ch1.
    + rewrite (compare_forEach_counter first _ _ E3), Hlen. cbn. lia.
Qed.

Lemma compare_chart_created_at_third_result_witness :
  ∃ s', CompareSample.forEach_success
          [("msft"%string, 1%nat); ("msft"%string, 2%nat);
           ("aapl"%string, 3%nat); ("goog"%string, 4%nat)]
          CompareSample.initial = Some s'
    ∧ CompareSample.seriesCounter s' = 4%nat
    ∧ ∃ s3, CompareSample.forEach_success
              [("msft"%string, 1%nat); ("msft"%string, 2%nat);
               ("aapl"%string, 3%nat)]
              CompareSample.initial = Some s3
        ∧ CompareSample.charts s' = [CompareSample.seriesOptions s3].
Proof.
  eexists. split; [reflexivity|].
  match goal with
  | |- CompareSample.seriesCounter ?s = _ ∧ _ =>
      destruct (compare_chart_created_at_third_result
                  [("msft"%string, 1%nat); ("msft"%string, 2%nat);
                   ("aapl"%string, 3%nat); ("goog"%string, 4%nat)] s
                  eq_refl) as (Hc & _ & Hch)
  end.
  split; [exact Hc|].
  exact (Hch [("msft"%string, 1%nat); ("msft"%string, 2%nat);
              ("aapl"%string, 3%nat)] [("goog"%string, 4%nat)]
             eq_refl eq_refl).
Defined.

(** ** The stored series *)

Lemma compare_array_set_length {A} (a : list (option A)) i v :
  (0 ≤ i)%Z →
  length (CompareSample.array_set a i v)
  = Nat.max (length a) (S (Z.to_nat i)).
Proof.
  intros Hi. unfold CompareSample.array_set.
  destruct (Z.ltb_spec i 0); [lia|].
  destruct (Nat.ltb_spec (Z.to_nat i) (length a)).
  - rewrite length_insert. lia.
  - rewrite !length_app, length_replicate. cbn. lia.
Qed.

Lemma compare_array_set_lookup {A} (a : list (option A)) i v (j : nat) e :
  (0 ≤ i)%Z →
  CompareSample.array_set a i v !! j = Some (Some e) →
  j = Z.to_nat i ∧ e = v ∨ j ≠ Z.to_nat i ∧ a !! j = Some (Some e).
Proof.
  intros Hi. unfold CompareSample.array_set.
  destruct (Z.ltb_spec i 0) as [?|_]; [lia|].
  destruct (decide (j = Z.to_nat i)) as [->|Hne].
  - intros Hl. left. split; [done|].
    destruct (Nat.ltb_spec (Z.to_nat i) (length a)).
    + rewrite list_lookup_insert_eq in Hl by done. by injection Hl as <-.
    + rewrite lookup_app_r in Hl by lia.
      rewrite lookup_app_r in Hl by (rewrite length_replicate; lia).
      rewrite length_replicate in Hl.
      replace (Z.to_nat i - length a - (Z.to_nat i - length a))%nat
        with 0%nat in Hl by lia.
      by injection Hl as <-.
  - intros Hl. right. split; [done|].
    destruct (Nat.ltb_spec (Z.to_nat i) (length a)).
    + by rewrite list_lookup_insert_ne in Hl.
    + destruct (decide (j < length a)%nat).
      * by rewrite lookup_app_l in Hl.
      * rewrite lookup_app_r in Hl by lia.
        destruct (decide (j - length a < Z.to_nat i - length a)%nat).
        -- rewrite lookup_app_l in Hl by (rewrite length_replicate; lia).
           apply lookup_replicate in Hl as [? _]. done.
        -- rewrite lookup_app_r in Hl by (rewrite length_replicate; lia).
           rewrite length_replicate in Hl.
           destruct (j - length a - (Z.to_nat i - length a))%nat as [|k] eqn:Ek;
             [lia|]. done.
Qed.

Lemma compare_store_series {D} m (d : D) s :
  m = "msft"%string ∨ m = "aapl"%string ∨ m = "goog"%string →
  let s' := CompareSample.store m d s in
  (length (CompareSample.seriesOptions s')
   ≤ Nat.max (length (CompareSample.seriesOptions s)) 3)%nat
  ∧ ∀ j e, CompareSample.seriesOptions s' !! j = Some (Some e) →
      CompareSample.names !! j = Some (CompareSample.name e)
      ∨ CompareSample.seriesOptions s !! j = Some (Some e).
Proof.
  intros Hm. cbn zeta.
  assert (Hso : ∃ i v,
            CompareSample.seriesOptions (CompareSample.store m d s)
            = CompareSample.array_set (CompareSample.seriesOptions s) i v
            ∧ (0 ≤ i < 3)%Z
            ∧ CompareSample.names !! Z.to_nat i
              = Some (CompareSample.name v)).
  { unfold CompareSample.store.
    destruct Hm as [-> | [-> | ->]]; eexists _, _;
      (split; [by destruct (_ =? _)%nat|]); by vm_compute. }
  destruct Hso as (i & v & -> & Hi & Hn). split.
  - rewrite compare_array_set_length by lia. lia.
  - intros j e H.
    apply compare_array_set_lookup in H; [|lia].
    destruct H as [[-> ->]|[_ H]]; tauto.
Qed.

(** Whatever results are stored, [seriesOptions] never has more than three
    entries and the series at index [i] carries the [i]-th name of
    [names]. *)
Theorem compare_series_sit_at_their_name {D} (series : list (string * D)) s' :
  CompareSample.forEach_success series CompareSample.initial = Some s' →
  (length (CompareSample.seriesOptions s') ≤ 3)%nat
  ∧ ∀ i e, CompareSample.seriesOptions s' !! i = Some (Some e) →
      CompareSample.names !! i = Some (CompareSample.name e).
Proof.
  assert (Hgen : ∀ s,
    ((length (CompareSample.seriesOptions s) ≤ 3)%nat
     ∧ ∀ i e, CompareSample.seriesOptions s !! i = Some (Some e) →
         CompareSample.names !! i = Some (CompareSample.name e)) →
    CompareSample.forEach_success series s = Some s' →
    (length (CompareSample.seriesOptions s') ≤ 3)%nat
    ∧ ∀ i e, CompareSample.seriesOptions s' !! i = Some (Some e) →
        CompareSample.names !! i = Some (CompareSample.name e)).
  { induction series as [|[n d] series IH]; intros s Hs H.
    - by injection H as <-.
    - cbn in H.
      destruct (CompareSample.match_name n) as [m|] eqn:Em;
        [|by unfold CompareSample.success in H; rewrite Em in H].
      rewrite (compare_success_match n m d s Em) in H. cbn in H.
      apply (IH (CompareSample.store m d s)); [|done].
      destruct (compare_store_series m d s
                  (compare_match_name_cases n m Em)) as [Hl Hk].
      destruct Hs as [Hs1 Hs2]. split; [lia|].
      intros i e Hi. destruct (Hk i e Hi) as [?|?]; [done|by apply Hs2]. }
  apply Hgen. split; [cbn; lia|]. intros i e H. done.
Qed.

Lemma compare_series_sit_at_their_name_witness :
  ∃ s', CompareSample.forEach_success
          [("x-goog-c.json"%string, 1%nat); ("aapl"%string, 2%nat)]
          CompareSample.initial = Some s'
    ∧ (length (CompareSample.seriesOptions s') ≤ 3)%nat
    ∧ ∀ i e, CompareSample.seriesOptions s' !! i = Some (Some e) →
        CompareSample.names !! i = Some (CompareSample.name e).
Proof.
  eexists. split; [reflexivity|].
  apply (compare_series_sit_at_their_name
           [("x-goog-c.json"%string, 1%nat); ("aapl"%string, 2%nat)]).
  reflexivity.
Defined.

(** * Witnesses of the further properties of the shader *)

Lemma extremes_are_seed_or_tile_pixel_witness :
  order_before (group_2x2 (0, 0)) ≠ []
  ∧ seed_or_pixel 2 2 params_wide (pixelData storage_wide) (0, 0)
      natural_2x2 (RGBA 1 0 0 0)
      (local_max (at_barrier 2 2 params_wide (group_2x2 (0, 0))
                    storage_wide))
  ∧ seed_or_pixel 2 2 params_wide (pixelData storage_wide) (0, 0)
      natural_2x2 (RGBA 255 255 255 255)
      (local_min (at_barrier 2 2 params_wide (group_2x2 (0, 0))
                    storage_wide)).
Proof.
  split; [done|].
  apply (extremes_are_seed_or_tile_pixel 2 2 params_wide (group_2x2 (0, 0))
           storage_wide).
  done.
Defined.

Lemma extremes_bound_tile_luminance_witness :
  (0, 0) ∈ order_before (group_2x2 (0, 0))
  ∧ f32_lt (srgbLuminance
              (local_max (at_barrier 2 2 params_wide (group_2x2 (0, 0))
                            storage_wide)))
           (srgbLuminance
              (read 0 (pixelData storage_wide)
                 (index_of params_wide (invocation 2 2 (0, 0) (0, 0)))))
    = false
  ∧ f32_lt (srgbLuminance
              (read 0 (pixelData storage_wide)
                 (index_of params_wide (invocation 2 2 (0, 0) (0, 0)))))
           (srgbLuminance
              (local_min (at_barrier 2 2 params_wide (group_2x2 (0, 0))
                            storage_wide)))
    = false.
Proof.
  split; [apply list_elem_of_here|].
  apply (extremes_bound_tile_luminance 2 2 params_wide (group_2x2 (0, 0))
           storage_wide (0, 0)).
  - apply list_elem_of_here.
  - reflexivity.
  - by vm_compute.
Defined.

Lemma vectors_hold_missing_positions_witness :
  valid_group 2 2 (group_2x2 (0, 0))
  ∧ let w := at_barrier 2 2 params_A (group_2x2 (0, 0)) storage_A in
    length (vectors w) = N.to_nat (chunk_size 2 2)
    ∧ take (N.to_nat (vectors_length w)) (vectors w)
      = (λ lid, position (invocation 2 2 (0, 0) lid))
          <$> missing_list 2 2 params_A (pixelData storage_A) (0, 0)
                natural_2x2.
Proof.
  split; [apply valid_group_2x2|].
  apply (vectors_hold_missing_positions 2 2 params_A (group_2x2 (0, 0))
           storage_A).
  - reflexivity.
  - apply valid_group_2x2.
Defined.

Lemma dispatch_keeps_pixels_and_lengths_witness :
  ∃ s', dispatch 2 2 params_wide grid_wide storage_wide = Some s'
    ∧ pixelData s' = pixelData storage_wide
    ∧ length (resultArrayList s') = length (resultArrayList storage_wide)
    ∧ length (debugData s') = length (debugData storage_wide).
Proof.
  eexists. split; [by vm_compute|].
  apply (dispatch_keeps_pixels_and_lengths 2 2 params_wide grid_wide
           storage_wide).
  by vm_compute.
Defined.

Lemma undispatched_tiles_keep_result_witness :
  well_formed 2 2 params_wide storage_wide
  ∧ valid_grid 2 2 [group_2x2 (0, 0)]
  ∧ (tile_of 2 2 2 0 ∉ group_id <$> [group_2x2 (0, 0)])
  ∧ ∃ s', dispatch 2 2 params_wide [group_2x2 (0, 0)] storage_wide = Some s'
      ∧ resultArrayList s' !! N.to_nat (pixel_index params_wide 2 0)
        = resultArrayList storage_wide
            !! N.to_nat (pixel_index params_wide 2 0).
Proof.
  assert (Hn : tile_of 2 2 2 0 ∉ group_id <$> [group_2x2 (0, 0)]).
  { intros H. by apply list_elem_of_singleton in H. }
  split; [apply well_formed_wide|]. split; [apply valid_grid_A|].
  split; [exact Hn|].
  apply (undispatched_tiles_keep_result 2 2 params_wide [group_2x2 (0, 0)]
           storage_wide 2 0).
  - apply well_formed_wide.
  - apply valid_grid_A.
  - reflexivity.
  - reflexivity.
  - exact Hn.
Defined.

Lemma well_formed_narrow : well_formed 2 2 params_narrow storage_narrow.
Proof. repeat split; done. Qed.

Lemma narrow_all_missing x y :
  x < width params_narrow → y < height params_narrow →
  tile_of 2 2 x y = group_id (group_2x2 (0, 0)) →
  pixelData storage_narrow !! N.to_nat (pixel_index params_narrow x y)
  = Some 0.
Proof.
  intros Hx Hy _. cbn in Hx, Hy.
  assert (x = 0) as -> by lia.
  by destruct (below_2 y Hy) as [-> | ->].
Qed.

Lemma all_missing_tile_gets_seed_witness :
  well_formed 2 2 params_narrow storage_narrow
  ∧ valid_grid 2 2 [group_2x2 (0, 0)]
  ∧ ∃ s', dispatch 2 2 params_narrow [group_2x2 (0, 0)] storage_narrow
          = Some s'
      ∧ ∀ x y, x < width params_narrow → y < height params_narrow →
          tile_of 2 2 x y = group_id (group_2x2 (0, 0)) →
          resultArrayList s' !! N.to_nat (pixel_index params_narrow x y)
          = Some (RGBA 1 0 0 0).
Proof.
  split; [apply well_formed_narrow|]. split; [apply valid_grid_A|].
  apply (all_missing_tile_gets_seed 2 2 params_narrow [group_2x2 (0, 0)]
           storage_narrow (group_2x2 (0, 0))).
  - apply well_formed_narrow.
  - apply valid_grid_A.
  - apply list_elem_of_here.
  - apply narrow_all_missing.
Defined.

Lemma workgroup_outside_image_witness :
  valid_group 2 2 (group_2x2 (1, 0))
  ∧ ∃ s', run_workgroup 2 2 params_A (group_2x2 (1, 0)) storage_A = Some s'
      ∧ resultArrayList s' = resultArrayList storage_A
      ∧ belowMinMatrix_length s' = belowMinMatrix_length storage_A
      ∧ pixelData s' = pixelData storage_A
      ∧ debugData s'
        = if debug params_A =? 1
          then write (debugData storage_A) (fst (group_id (group_2x2 (1, 0))))
                 0
          else debugData storage_A.
Proof.
  split; [apply valid_group_2x2|].
  apply (workgroup_outside_image 2 2 params_A (group_2x2 (1, 0)) storage_A).
  - reflexivity.
  - reflexivity.
  - reflexivity.
  - reflexivity.
  - apply valid_group_2x2.
  - left. cbn. lia.
Defined.

Lemma counter_grows_by_chunk_size_per_sentinel_witness :
  well_formed 2 2 params_wide storage_wide'
  ∧ valid_grid 2 2 grid_wide
  ∧ covers 2 2 params_wide grid_wide
  ∧ ∃ s', dispatch 2 2 params_wide grid_wide storage_wide' = Some s'
      ∧ belowMinMatrix_length s'
        = wrap (belowMinMatrix_length storage_wide'
                + chunk_size 2 2 * sentinel_count (pixelData storage_wide')).
Proof.
  split; [apply well_formed_wide'|]. split; [apply valid_grid_wide|].
  split; [apply covers_wide|].
  apply (counter_grows_by_chunk_size_per_sentinel 2 2 params_wide grid_wide
           storage_wide').
  - apply well_formed_wide'.
  - apply valid_grid_wide.
  - apply covers_wide.
Defined.

Lemma result_depends_on_pixels_and_first_half_witness :
  let grid' := [{| group_id := (1, 0); order_before := natural_2x2;
                   order_after := [(1, 1); (0, 1); (1, 0); (0, 0)] |};
                group_2x2 (0, 0)] in
  let s2 := {| resultArrayList := [7; 7; 7; 7; 7; 7; 7; 7];
               belowMinMatrix_length := 5;
               pixelData := pixelData storage_wide;
               debugData := [] |} in
  valid_grid 2 2 grid'
  ∧ well_formed 2 2 params_wide s2
  ∧ ∃ s1' s2',
      dispatch 2 2 params_wide grid_wide storage_wide = Some s1'
      ∧ dispatch 2 2 params_wide grid' s2 = Some s2'
      ∧ resultArrayList s1' = resultArrayList s2'.
Proof.
  cbn zeta.
  assert (Hv : valid_grid 2 2
                 [{| group_id := (1, 0); order_before := natural_2x2;
                     order_after := [(1, 1); (0, 1); (1, 0); (0, 0)] |};
                  group_2x2 (0, 0)]).
  { split.
    - apply Forall_cons. split; [|apply Forall_singleton, valid_group_2x2].
      split; cbn; rewrite local_ids_2x2; [done|].
      symmetry. apply (Permutation_rev natural_2x2).
    - cbn. apply NoDup_cons. split; [|apply NoDup_singleton].
      intros H. by apply list_elem_of_singleton in H. }
  assert (Hw : well_formed 2 2 params_wide
                 {| resultArrayList := [7; 7; 7; 7; 7; 7; 7; 7];
                    belowMinMatrix_length := 5;
                    pixelData := pixelData storage_wide;
                    debugData := [] |}) by (repeat split; done).
  split; [exact Hv|]. split; [exact Hw|].
  apply (result_depends_on_pixels_and_first_half 2 2 params_wide grid_wide).
  - apply well_formed_wide.
  - exact Hw.
  - reflexivity.
  - apply valid_grid_wide.
  - apply covers_wide.
  - exact Hv.
  - intros g Hg. unfold grid_wide in Hg.
    apply elem_of_cons in Hg as [->|Hg].
    + exists (group_2x2 (0, 0)).
      split; [|done]. rewrite !elem_of_cons. tauto.
    + apply list_elem_of_singleton in Hg as ->.
      exists {| group_id := (1, 0); order_before := natural_2x2;
                order_after := [(1, 1); (0, 1); (1, 0); (0, 0)] |}.
      split; [|done]. rewrite !elem_of_cons. tauto.
Defined.
